(** * smart_open/http.py: buffered and seekable HTTP readers

    A shallow embedding of [smart_open/http.py] - the classes
    [BufferedInputBase] and [SeekableBufferedInputBase] - together with the
    properties of [read], [seek], [tell] and [close] that the specification
    states about them.

    Conventions.
    - A Python [bytes] value is a [list byte]; a [str] is a [string] whose
      characters are read as Latin-1 code points (what [http.client] hands to
      [requests] for header values).
    - Python integers are [Z].
    - An instance is a record of its attributes.  A method is a function from
      the instance to an outcome (a value or a raised exception) and the
      instance afterwards.
    - The [requests] library is the transport.  A response carries its
      status, its headers and the chunks its body will still deliver;
      [response.raw] and the iterator made by [response.iter_content] consume
      that one sequence.  [requests.get] is a variable of the development; it
      may answer differently depending on the requests it has already
      seen. *)

From Stdlib Require Import ZArith Lia String Ascii List Bool.
From Stdlib.Strings Require Import Byte.
From stdpp Require Import base option list strings gmap pretty.

Local Open Scope string_scope.
Local Open Scope list_scope.
Local Open Scope Z_scope.

(** ** Python values *)

Abbreviation bytes := (list byte).

(** Byte-string literals: [B "abc"] is the Python literal [b"abc"]. *)
Definition B (s : string) : bytes := list_byte_of_string s.

(** What [read] returns: the source returns the [str] literal [''] on two
    paths and [bytes] on the others. *)
Inductive pyval : Type :=
  | PyStr (s : string)
  | PyBytes (d : bytes).

(** [len(v)]. *)
Definition py_len (v : pyval) : Z :=
  match v with
  | PyStr s => Z.of_nat (String.length s)
  | PyBytes d => Z.of_nat (length d)
  end.

(** Truth value of [v] as in [if not data]: empty is false. *)
Definition py_truth (v : pyval) : bool := negb (py_len v =? 0).

(** The bytes of a result; the empty [str] has none. *)
Definition py_bytes (v : pyval) : bytes :=
  match v with
  | PyStr _ => []
  | PyBytes d => d
  end.

(** Exceptions the module raises or lets through. *)
Inductive exn : Type :=
  | ValueError (msg : string)
  | OSError
  | UnsupportedOperation
  | TypeError
  | UnboundLocalError
  | HTTPError (status : Z) (why : string).

(** ** [str] helpers: [lower] and [int] *)

(** [str.lower] on one Latin-1 character. *)
Definition lower_char (c : ascii) : ascii :=
  let n := N_of_ascii c in
  if ((65 <=? n) && (n <=? 90)
      || (192 <=? n) && (n <=? 222) && negb (n =? 215))%N
  then ascii_of_N (n + 32)
  else c.

Fixpoint lower (s : string) : string :=
  match s with
  | EmptyString => EmptyString
  | String c rest => String (lower_char c) (lower rest)
  end.

(** Characters [int] strips from both ends of a [str] (the Latin-1 part of
    [str.isspace]). *)
Definition is_space (c : ascii) : bool :=
  let n := N_of_ascii c in
  ((9 <=? n) && (n <=? 13) || (28 <=? n) && (n <=? 32)
   || (n =? 133) || (n =? 160))%N.

Definition digit_of (c : ascii) : option Z :=
  let n := N_of_ascii c in
  if ((48 <=? n) && (n <=? 57))%N then Some (Z.of_N n - 48) else None.

Definition is_underscore (c : ascii) : bool := (N_of_ascii c =? 95)%N.

(** The digits of a decimal literal after its first digit: digits, each
    optionally preceded by one underscore. *)
Fixpoint int_digits (acc : Z) (l : list ascii) : option Z :=
  match l with
  | [] => Some acc
  | c :: rest =>
      match digit_of c with
      | Some d => int_digits (10 * acc + d) rest
      | None =>
          if is_underscore c then
            match rest with
            | c' :: rest' =>
                match digit_of c' with
                | Some d => int_digits (10 * acc + d) rest'
                | None => None
                end
            | [] => None
            end
          else None
      end
  end.

Definition int_unsigned (l : list ascii) : option Z :=
  match l with
  | c :: rest =>
      match digit_of c with
      | Some d => int_digits d rest
      | None => None
      end
  | [] => None
  end.

Fixpoint lstrip (l : list ascii) : list ascii :=
  match l with
  | c :: rest => if is_space c then lstrip rest else l
  | [] => []
  end.

Definition strip (l : list ascii) : list ascii :=
  rev (lstrip (rev (lstrip l))).

(** [int(s)] for a [str] in base 10; [None] is [ValueError].  (The
    interpreter's cap on the number of digits is not modelled.) *)
Definition py_int (s : string) : option Z :=
  match strip (list_ascii_of_string s) with
  | c :: rest =>
      if (N_of_ascii c =? 45)%N then Z.opp <$> int_unsigned rest
      else if (N_of_ascii c =? 43)%N then int_unsigned rest
      else int_unsigned (c :: rest)
  | [] => None
  end.

(** ** The transport: requests and responses *)

(** The [auth] argument of [requests.get]; never inspected here. *)
Inductive Auth : Type :=
  | NoAuth
  | BasicAuth (user password : string)
  | HTTPKerberosAuth.

Record Request : Type := mkRequest {
  req_url : string;
  req_auth : Auth;
  req_headers : gmap string string
}.

(** A response.  [headers] is a case-insensitive dictionary, stored under
    lower-cased names.  [raw] holds the chunks of the body not yet consumed,
    in the sizes the transport delivers them. *)
Record Response : Type := mkResponse {
  status_code : Z;
  reason : string;
  headers : gmap string string;
  raw : list bytes
}.

(** [headers.get(name)]. *)
Definition headers_get (h : gmap string string) (name : string) : option string :=
  h !! lower name.

(** [response.raise_for_status()]: raises for 4xx and 5xx. *)
Definition raise_for_status (r : Response) : option exn :=
  if (400 <=? status_code r) && (status_code r <? 600)
  then Some (HTTPError (status_code r) (reason r))
  else None.

(** [response.ok]: [raise_for_status] does not raise. *)
Definition ok (r : Response) : bool :=
  match raise_for_status r with
  | Some _ => false
  | None => true
  end.

(** [response.raw.read()]: the whole remaining body; nothing is left. *)
Definition raw_read (r : Response) : bytes * Response :=
  (concat (raw r),
   {| status_code := status_code r; reason := reason r;
      headers := headers r; raw := [] |}).

(** [requests.get]: given the requests already served, answers one more. *)
Definition Transport : Type := list Request → Request → Response.

(** ** Module constants *)

Definition DEFAULT_BUFFER_SIZE : Z := 128 * 1024.

Definition START : Z := 0.
Definition CURRENT : Z := 1.
Definition END : Z := 2.
Definition WHENCE_CHOICES : list Z := [START; CURRENT; END].

Definition _HEADERS : gmap string string := {[ "Accept-Encoding" := "identity" ]}.

Definition _clamp (value minval maxval : Z) : Z :=
  Z.max (Z.min value maxval) minval.

(** ** Outcomes of method calls *)

(** A method run on an instance of type [S]: the value returned or the
    exception raised, and the instance afterwards. *)
Definition M (S A : Type) : Type := S → (exn + A) * S.

Definition ret {S A} (a : A) : M S A := λ s, (inr a, s).
Definition raise {S A} (e : exn) : M S A := λ s, (inl e, s).
Definition bind {S A B} (m : M S A) (k : A → M S B) : M S B :=
  λ s, match m s with
       | (inr a, s') => k a s'
       | (inl e, s') => (inl e, s')
       end.

(** ** class BufferedInputBase *)

(** The iterator object returned by [response.iter_content(chunk_size)].  It
    draws from the body of the response it was made from; that response is
    the instance's [response] attribute whenever the iterator is used. *)
Inductive ContentIter : Type :=
  | IterContent (chunk_size : Z).

Record BufferedInputBase : Type := mkBase {
  response : option Response;
  buffer_size : Z;
  mode : string;
  _read_buffer : option bytes;
  _read_iter : option ContentIter;
  _current_pos : Z;
  (** not an attribute: the requests sent so far, oldest first *)
  requests_log : list Request
}.

Definition set_response (r : option Response) (s : BufferedInputBase) :=
  mkBase r (buffer_size s) (mode s) (_read_buffer s) (_read_iter s)
         (_current_pos s) (requests_log s).
Definition set_read_buffer (d : option bytes) (s : BufferedInputBase) :=
  mkBase (response s) (buffer_size s) (mode s) d (_read_iter s)
         (_current_pos s) (requests_log s).
Definition set_read_iter (i : option ContentIter) (s : BufferedInputBase) :=
  mkBase (response s) (buffer_size s) (mode s) (_read_buffer s) i
         (_current_pos s) (requests_log s).
Definition set_current_pos (p : Z) (s : BufferedInputBase) :=
  mkBase (response s) (buffer_size s) (mode s) (_read_buffer s) (_read_iter s)
         p (requests_log s).
Definition set_requests_log (l : list Request) (s : BufferedInputBase) :=
  mkBase (response s) (buffer_size s) (mode s) (_read_buffer s) (_read_iter s)
         (_current_pos s) l.

(** The [auth] chosen by both constructors. *)
Definition choose_auth (kerberos : bool) (user password : option string) : Auth :=
  if kerberos then HTTPKerberosAuth
  else match user, password with
       | Some u, Some p => BasicAuth u p
       | _, _ => NoAuth
       end.

(** The loop [while len(self._read_buffer) < size] of [read]: chunks are
    appended to the buffer until it holds [size] bytes ([true]) or [next]
    raises [StopIteration] ([false]).  Returns the buffer and the chunks not
    pulled. *)
Fixpoint fill_buffer (buf : bytes) (chunks : list bytes) (size : Z)
  : bytes * list bytes * bool :=
  if Z.of_nat (length buf) <? size then
    match chunks with
    | [] => (buf, [], false)
    | c :: rest => fill_buffer (buf ++ c) rest size
    end
  else (buf, chunks, true).

Definition with_raw (r : Response) (chunks : list bytes) : Response :=
  {| status_code := status_code r; reason := reason r;
     headers := headers r; raw := chunks |}.

Definition read (size : Z) : M BufferedInputBase pyval := λ self,
  match response self with
  | None => (inr (PyStr ""), self)
  | Some r =>
      if size =? 0 then (inr (PyStr ""), self)
      else if size <? 0 then
        let '(retval, r') := raw_read r in
        let self := set_response (Some r') self in
        let self := set_current_pos (_current_pos self + Z.of_nat (length retval)) self in
        (inr (PyBytes retval), self)
      else
        let self :=
          match _read_iter self with
          | None =>
              set_read_buffer (Some [])
                (set_read_iter (Some (IterContent (buffer_size self))) self)
          | Some _ => self
          end in
        match _read_buffer self with
        | None => (inl TypeError, self)
        | Some buf =>
            let '(buf, rest, enough) := fill_buffer buf (raw r) size in
            let self := set_response (Some (with_raw r rest)) self in
            if enough then
              let retval := take (Z.to_nat size) buf in
              let self := set_read_buffer (Some (drop (Z.to_nat size) buf)) self in
              let self := set_current_pos (_current_pos self + Z.of_nat (length retval)) self in
              (inr (PyBytes retval), self)
            else
              let retval := buf in
              let self := set_current_pos (_current_pos self + Z.of_nat (length retval)) self in
              let self := set_read_buffer (Some []) self in
              (inr (PyBytes retval), self)
        end
  end.

(** [read1]: "This is the same as read()". *)
Definition read1 (size : Z) : M BufferedInputBase pyval := read size.


Definition close : M BufferedInputBase unit := λ self,
  (inr tt, set_response None self).

Definition readable (self : BufferedInputBase) : bool := true.

(** [BufferedInputBase.seekable]. *)
Definition base_seekable (self : BufferedInputBase) : bool := false.

Definition detach : M BufferedInputBase unit := raise UnsupportedOperation.

(** ** class SeekableBufferedInputBase(BufferedInputBase) *)

(** The attributes the subclass adds to the inherited ones. *)
Record SeekableBufferedInputBase : Type := mkSeekable {
  base : BufferedInputBase;
  url : string;
  auth : Auth;
  _seekable : bool;
  content_length : Z
}.

Definition with_base (s : BufferedInputBase) (self : SeekableBufferedInputBase) :=
  mkSeekable s (url self) (auth self) (_seekable self) (content_length self).

(** A method inherited from [BufferedInputBase], run on a subclass
    instance. *)
Definition inherited {A} (m : M BufferedInputBase A) : M SeekableBufferedInputBase A :=
  λ self, let '(res, s) := m (base self) in (res, with_base s self).

(** The request headers built by [_partial_request]. *)
Definition partial_request_headers (start_pos : option Z) : gmap string string :=
  let headers := _HEADERS in
  match start_pos with
  | Some p => <[ "range" := "bytes=" +:+ pretty p +:+ "-" ]> headers
  | None => headers
  end.

(** [int(headers.get("Content-Length", -1))]; [None] is [ValueError]. *)
Definition parse_content_length (h : gmap string string) : option Z :=
  match headers_get h "Content-Length" with
  | Some v => py_int v
  | None => Some (-1)
  end.

(** [headers.get("Accept-Ranges", "none").lower() != "bytes"]. *)
Definition ranges_not_accepted (h : gmap string string) : bool :=
  negb (String.eqb (lower (default "none" (headers_get h "Accept-Ranges"))) "bytes").

(** [tell] and [seekable] only read an attribute. *)
Definition tell (self : SeekableBufferedInputBase) : Z :=
  _current_pos (base self).

Definition seekable (self : SeekableBufferedInputBase) : bool :=
  _seekable self.

Definition truncate : M SeekableBufferedInputBase unit := raise UnsupportedOperation.

Section WithTransport.

Variable requests_get : Transport.

(** [BufferedInputBase.__init__]: the instance or the exception. *)
Definition BufferedInputBase_init (url mode : string) (buffer_size : Z)
    (kerberos : bool) (user password : option string)
  : exn + BufferedInputBase :=
  let auth := choose_auth kerberos user password in
  let rq := mkRequest url auth _HEADERS in
  let resp := requests_get [] rq in
  match (if ok resp then None else raise_for_status resp) with
  | Some e => inl e
  | None => inr (mkBase (Some resp) buffer_size mode None None 0 [rq])
  end.

(** [_partial_request]: one more GET, with a range header when
    [start_pos] is given. *)
Definition _partial_request (start_pos : option Z)
  : M SeekableBufferedInputBase Response := λ self,
  let rq := mkRequest (url self) (auth self) (partial_request_headers start_pos) in
  let log := requests_log (base self) in
  (inr (requests_get log rq),
   with_base (set_requests_log (log ++ [rq]) (base self)) self).

(** [SeekableBufferedInputBase.__init__]. *)
Definition SeekableBufferedInputBase_init (url mode : string) (buffer_size : Z)
    (kerberos : bool) (user password : option string)
  : exn + SeekableBufferedInputBase :=
  let auth := choose_auth kerberos user password in
  let rq := mkRequest url auth (partial_request_headers None) in
  let resp := requests_get [] rq in
  match (if ok resp then None else raise_for_status resp) with
  | Some e => inl e
  | None =>
      match parse_content_length (headers resp) with
      | None => inl (ValueError "invalid literal for int() with base 10")
      | Some content_length =>
          let _seekable := true in
          let _seekable := if content_length <? 0 then false else _seekable in
          let _seekable :=
            if ranges_not_accepted (headers resp) then false else _seekable in
          inr (mkSeekable
                 (mkBase (Some resp) buffer_size mode None None 0 [rq])
                 url auth _seekable content_length)
      end
  end.

Definition seek (offset whence : Z) : M SeekableBufferedInputBase Z := λ self,
  if negb (existsb (Z.eqb whence) WHENCE_CHOICES) then
    (inl (ValueError "invalid whence, expected one of [0, 1, 2]"), self)
  else if negb (seekable self) then (inl OSError, self)
  else
    let new_pos :=
      if whence =? START then Some offset
      else if whence =? CURRENT then Some (_current_pos (base self) + offset)
      else if whence =? 2 then Some (content_length self + offset)
      else None in
    match new_pos with
    | None => (inl UnboundLocalError, self)
    | Some new_pos =>
        let new_pos := _clamp new_pos 0 (content_length self) in
        if negb (_current_pos (base self) =? new_pos) then
          let self := with_base (set_current_pos new_pos (base self)) self in
          let self := with_base (set_read_buffer None (base self)) self in
          let self := with_base (set_read_iter None (base self)) self in
          match _partial_request (Some new_pos) self with
          | (inl e, self) => (inl e, self)
          | (inr response, self) =>
              let self :=
                if ok response
                then with_base (set_response (Some response) (base self)) self
                else with_base (set_response None (base self)) self in
              (inr new_pos, self)
          end
        else (inr new_pos, self)
    end.

End WithTransport.

(** ** Running several calls *)

Inductive call : Type :=
  | Read (size : Z)
  | Seek (offset whence : Z)
  | Close.

Inductive value : Type :=
  | VData (v : pyval)
  | VInt (z : Z)
  | VNone.

Definition fmap_outcome {S A C} (f : A → C) (m : M S A) : M S C :=
  bind m (λ a, ret (f a)).

(** Successive [read] calls on one [BufferedInputBase]. *)
Fixpoint reads (sizes : list Z) (self : BufferedInputBase)
  : list (exn + pyval) * BufferedInputBase :=
  match sizes with
  | [] => ([], self)
  | n :: rest =>
      let '(res, self) := read n self in
      let '(more, self) := reads rest self in
      (res :: more, self)
  end.

Section Calls.

Variable requests_get : Transport.

Definition exec (c : call) : M SeekableBufferedInputBase value :=
  match c with
  | Read size => fmap_outcome VData (inherited (read size))
  | Seek offset whence => fmap_outcome VInt (seek requests_get offset whence)
  | Close => fmap_outcome (λ _, VNone) (inherited close)
  end.

(** The calls of a client, one after the other; an exception is seen by
    the client, which goes on with the same instance. *)
Fixpoint run (cs : list call) (self : SeekableBufferedInputBase)
  : list (exn + value) * SeekableBufferedInputBase :=
  match cs with
  | [] => ([], self)
  | c :: rest =>
      let '(res, self) := exec c self in
      let '(more, self) := run rest self in
      (res :: more, self)
  end.

(** The instances a client can hold: made by the constructor, then used
    through [read], [seek] and [close]. *)
Inductive reachable : SeekableBufferedInputBase → Prop :=
  | reachable_init url mode buffer_size kerberos user password self :
      SeekableBufferedInputBase_init requests_get
        url mode buffer_size kerberos user password = inr self →
      reachable self
  | reachable_exec c self :
      reachable self → reachable (snd (exec c self)).

End Calls.

(** ** A transport double: one resource served in fixed-size chunks *)

Fixpoint chunked_go (fuel : nat) (n : nat) (d : bytes) : list bytes :=
  match fuel with
  | O => []
  | S fuel =>
      match d with
      | [] => []
      | _ => take n d :: chunked_go fuel n (drop n d)
      end
  end.

(** [d] cut into pieces of [n] bytes (the last may be shorter). *)
Definition chunked (n : nat) (d : bytes) : list bytes :=
  chunked_go (length d) n d.

(** Serves [content] in chunks of [n] bytes with response headers [hdrs].
    A request with [range: bytes=p-] for [p] inside the content gets the
    suffix from [p]; any other range gets 416. *)
Definition file_server (content : bytes) (n : nat) (hdrs : gmap string string)
  : Transport := λ _ rq,
  match req_headers rq !! "range" with
  | None => mkResponse 200 "OK" hdrs (chunked n content)
  | Some v =>
      match
        find (λ p, String.eqb v ("bytes=" +:+ pretty p +:+ "-"))
             (seqZ 0 (Z.of_nat (length content)))
      with
      | Some p =>
          mkResponse 206 "Partial Content" hdrs
                     (chunked n (drop (Z.to_nat p) content))
      | None => mkResponse 416 "Requested Range Not Satisfiable" ∅ []
      end
  end.

Definition alphabet : bytes := B "abcdefghijklmnopqrstuvwxyz".

Definition seekable_headers : gmap string string :=
  {[ "content-length" := "26"; "accept-ranges" := "bytes" ]}.

Definition alphabet_server : Transport := file_server alphabet 4 seekable_headers.

Definition open_alphabet : exn + BufferedInputBase :=
  BufferedInputBase_init alphabet_server "http://host/abc" "r"
    DEFAULT_BUFFER_SIZE false None None.

Definition open_alphabet_seekable : exn + SeekableBufferedInputBase :=
  SeekableBufferedInputBase_init alphabet_server "http://host/abc" "r"
    DEFAULT_BUFFER_SIZE false None None.

Definition results_of {S A} (o : exn + S) (f : S → list (exn + A) * S)
  : option (list (exn + A)) :=
  match o with
  | inr self => Some (fst (f self))
  | inl _ => None
  end.

(** ** A client that reads to the end *)

(** The loop [while True: d = f.read(n); if not d: break; out += d].
    [None]: the loop is still running after [fuel] calls. *)
Fixpoint read_until_empty (fuel : nat) (n : Z) (self : BufferedInputBase)
  : option (exn + bytes) :=
  match fuel with
  | O => None
  | S fuel =>
      match read n self with
      | (inl e, _) => Some (inl e)
      | (inr d, self) =>
          if py_truth d then
            match read_until_empty fuel n self with
            | Some (inr out) => Some (inr (py_bytes d ++ out))
            | other => other
            end
          else Some (inr [])
      end
  end.

(** Total length of the data returned by the [read] calls of a run. *)
Fixpoint bytes_read (results : list (exn + value)) : Z :=
  match results with
  | inr (VData d) :: rest => py_len d + bytes_read rest
  | _ :: rest => bytes_read rest
  | [] => 0
  end.

(** ** Transports that serve one resource *)

(** [requests_get] serves [content]: a successful answer to the request
    without a range carries the whole content, and a [Content-Length] it
    announces is the length of the content; a successful answer to a request
    for the range from [p] carries the content from [p].  Chunking is
    free. *)
Definition serves (requests_get : Transport) (content : bytes) : Prop :=
  ∀ log url auth start_pos,
    let r := requests_get log (mkRequest url auth (partial_request_headers start_pos)) in
    ok r = true →
    match start_pos with
    | None =>
        concat (raw r) = content
        ∧ ∀ n, parse_content_length (headers r) = Some n → 0 ≤ n →
               n = Z.of_nat (length content)
    | Some p =>
        0 ≤ p ≤ Z.of_nat (length content) →
        concat (raw r) = drop (Z.to_nat p) content
    end.

(** The buffer as [read] sees it: empty until the iterator exists. *)
Definition buffered (self : BufferedInputBase) : bytes :=
  match _read_iter self with
  | None => []
  | Some _ => default [] (_read_buffer self)
  end.

(** The iterator and the buffer are created together. *)
Definition buffer_ready (self : BufferedInputBase) : Prop :=
  _read_iter self = None ∨ ∃ buf, _read_buffer self = Some buf.

(** What holds of every reader of a resource of [total] bytes: the iterator
    and the buffer exist together, the cursor is inside the resource, and
    the cursor, the buffer and the rest of the body of the current response
    add up to [total]. *)
Record base_consistent (total : Z) (self : BufferedInputBase) : Prop := {
  consistent_buffer :
    match _read_iter self, _read_buffer self with
    | None, None | Some _, Some _ => True
    | _, _ => False
    end;
  consistent_range : 0 ≤ _current_pos self ≤ total;
  consistent_pos :
    ∀ r, response self = Some r →
      _current_pos self + Z.of_nat (length (buffered self))
        + Z.of_nat (length (concat (raw r))) = total
}.

(** For the subclass, moreover, the length found at construction is the
    length of the content when seeking is enabled. *)
Definition consistent (content : bytes) (self : SeekableBufferedInputBase) : Prop :=
  (_seekable self = true → content_length self = Z.of_nat (length content))
  ∧ base_consistent (Z.of_nat (length content)) (base self).

(** The empty results: [''] and [b'']. *)
Definition is_empty (o : exn + pyval) : Prop :=
  ∃ v, o = inr v ∧ py_len v = 0.

(** The response to the request [seek] sends for position [p], and the
    instance after a [seek] that moved the cursor to [p]. *)
Definition reopened (requests_get : Transport) (self : SeekableBufferedInputBase)
    (p : Z) : Response :=
  requests_get (requests_log (base self))
    (mkRequest (url self) (auth self) (partial_request_headers (Some p))).

Definition moved (requests_get : Transport) (self : SeekableBufferedInputBase)
    (p : Z) : SeekableBufferedInputBase :=
  let r := reopened requests_get self p in
  mkSeekable
    (mkBase (if ok r then Some r else None)
       (buffer_size (base self)) (mode (base self)) None None p
       (requests_log (base self)
          ++ [mkRequest (url self) (auth self) (partial_request_headers (Some p))]))
    (url self) (auth self) (_seekable self) (content_length self).

(** A transport double without [Content-Length]: seeking is off. *)
Definition plain_server : Transport := file_server alphabet 4 ∅.

Definition open_plain : exn + SeekableBufferedInputBase :=
  SeekableBufferedInputBase_init plain_server "http://host/abc" "r"
    DEFAULT_BUFFER_SIZE false None None.

(** A transport double that spells the range token with a capital. *)
Definition capital_headers : gmap string string :=
  {[ "content-length" := "26"; "accept-ranges" := "Bytes" ]}.

Definition capital_server : Transport := file_server alphabet 4 capital_headers.

(** The instances the constructors return for these doubles. *)
Definition first_request : Request :=
  mkRequest "http://host/abc" NoAuth _HEADERS.

Definition alphabet_base : BufferedInputBase :=
  mkBase (Some (alphabet_server [] first_request))
         DEFAULT_BUFFER_SIZE "r" None None 0 [first_request].

Definition alphabet_reader : SeekableBufferedInputBase :=
  mkSeekable alphabet_base "http://host/abc" NoAuth true 26.

Definition plain_reader : SeekableBufferedInputBase :=
  mkSeekable
    (mkBase (Some (plain_server [] first_request))
            DEFAULT_BUFFER_SIZE "r" None None 0 [first_request])
    "http://host/abc" NoAuth false (-1).

(** The reader is in step with [content]: the buffer followed by the body
    still to come is the content from the cursor on. *)
Definition in_step (content : bytes) (self : BufferedInputBase) : Prop :=
  0 ≤ _current_pos self
  ∧ buffer_ready self
  ∧ ∀ r, response self = Some r →
      buffered self ++ concat (raw r)
      = drop (Z.to_nat (_current_pos self)) content.

(** Calls other than [read] with a negative size. *)
Definition bounded_call (c : call) : Prop :=
  match c with
  | Read size => 0 ≤ size
  | _ => True
  end.

(** The requests a run of calls adds to the log when every [seek] that
    moves the cursor sends one: the number of [seek] results that differ
    from the cursor before the call. *)
Fixpoint moves (pos : Z) (cs : list call) (results : list (exn + value)) : nat :=
  match cs, results with
  | Seek _ _ :: cs, inr (VInt p) :: results =>
      Nat.add (if pos =? p then 0%nat else 1%nat) (moves p cs results)
  | Read _ :: cs, inr (VData d) :: results => moves (pos + py_len d) cs results
  | _ :: cs, _ :: results => moves pos cs results
  | _, _ => 0%nat
  end.


(** * Properties *)

Example open_alphabet_eq : open_alphabet = inr alphabet_base.
Proof. reflexivity. Qed.

Example open_alphabet_seekable_eq : open_alphabet_seekable = inr alphabet_reader.
Proof. vm_compute. reflexivity. Qed.

Example open_plain_eq : open_plain = inr plain_reader.
Proof. vm_compute. reflexivity. Qed.

Example scenario_forward :
  results_of open_alphabet (reads [10; 10; 100; 1])
  = Some [inr (PyBytes (B "abcdefghij")); inr (PyBytes (B "klmnopqrst"));
          inr (PyBytes (B "uvwxyz")); inr (PyBytes [])].
Proof. vm_compute. reflexivity. Qed.

Example scenario_seekable :
  results_of open_alphabet_seekable
    (run alphabet_server [Seek 20 START; Read 6; Seek (-5) END; Read 5])
  = Some [inr (VInt 20); inr (VData (PyBytes (B "uvwxyz")));
          inr (VInt 21); inr (VData (PyBytes (B "vwxyz")))].
Proof. vm_compute. reflexivity. Qed.

Example py_int_examples :
  py_int "26" = Some 26 ∧ py_int " +1_000 " = Some 1000 ∧ py_int "-5" = Some (-5)
  ∧ py_int "" = None ∧ py_int "1__0" = None ∧ py_int "_1" = None
  ∧ py_int "12a" = None ∧ py_int "- 5" = None.
Proof. vm_compute. repeat split. Qed.

Example lower_examples :
  lower "BYTES" = "bytes" ∧ lower "Content-Length" = "content-length".
Proof. vm_compute. split; reflexivity. Qed.

(** ** Unfolding [seek] *)

Lemma whence_choices_spec (whence : Z) :
  existsb (Z.eqb whence) WHENCE_CHOICES = true
  ↔ whence = START ∨ whence = CURRENT ∨ whence = END.
Proof.
  unfold WHENCE_CHOICES, START, CURRENT, END. simpl.
  rewrite !orb_true_iff, !Z.eqb_eq. intuition discriminate.
Qed.

Lemma clamp_cases (value maxval : Z) :
  0 ≤ maxval →
  _clamp value 0 maxval
  = if value <? 0 then 0 else if maxval <? value then maxval else value.
Proof.
  intros Hmax. unfold _clamp.
  destruct (Z.ltb_spec value 0), (Z.ltb_spec maxval value); lia.
Qed.

Lemma seek_unfold requests_get self offset whence t :
  _seekable self = true →
  (whence = START ∧ t = offset
   ∨ whence = CURRENT ∧ t = _current_pos (base self) + offset
   ∨ whence = END ∧ t = content_length self + offset) →
  seek requests_get offset whence self
  = let p := _clamp t 0 (content_length self) in
    if _current_pos (base self) =? p then (inr p, self)
    else (inr p, moved requests_get self p).
Proof.
  intros Hs Ht. unfold seek, seekable. rewrite Hs.
  assert (Hw : existsb (Z.eqb whence) WHENCE_CHOICES = true).
  { apply whence_choices_spec. tauto. }
  rewrite Hw. cbn [negb].
  assert (Hnp :
    (if whence =? START then Some offset
     else if whence =? CURRENT then Some (_current_pos (base self) + offset)
     else if whence =? 2 then Some (content_length self + offset) else None)
    = Some t).
  { unfold START, CURRENT, END in *.
    destruct Ht as [[-> ->]|[[-> ->]|[-> ->]]]; reflexivity. }
  rewrite Hnp. cbn zeta.
  destruct (_current_pos (base self) =? _clamp t 0 (content_length self)); cbn [negb].
  - reflexivity.
  - unfold _partial_request, moved, reopened. cbn.
    destruct (ok _); reflexivity.
Qed.

Lemma read_closed size self :
  response self = None → read size self = (inr (PyStr ""), self).
Proof. intros H. unfold read. rewrite H. reflexivity. Qed.

Lemma reads_closed sizes self :
  response self = None →
  reads sizes self = (map (λ _, inr (PyStr "")) sizes, self).
Proof.
  intros H. induction sizes as [|n sizes IH]; cbn [reads map].
  - reflexivity.
  - rewrite (read_closed n self H), IH. reflexivity.
Qed.

(** ** The cursor counts the bytes returned *)

Lemma read_advances size self :
  _current_pos (snd (read size self))
  = _current_pos self
    + match fst (read size self) with inr d => py_len d | inl _ => 0 end.
Proof.
  unfold read. destruct (response self) as [r|]; cbn; [|lia].
  destruct (size =? 0); cbn; [lia|].
  destruct (size <? 0); cbn; [lia|].
  destruct (_read_iter self); cbn.
  - destruct (_read_buffer self) as [buf|]; cbn; [|lia].
    destruct (fill_buffer buf (raw r) size) as [[buf' rest] [|]]; cbn; lia.
  - destruct (fill_buffer [] (raw r) size) as [[buf' rest] [|]]; cbn; lia.
Qed.

Lemma py_len_nonneg d : 0 ≤ py_len d.
Proof. destruct d; cbn; lia. Qed.

Lemma exec_unseekable requests_get c self :
  _seekable self = false →
  let '(res, self') := exec requests_get c self in
  _seekable self' = false
  ∧ tell self' = tell self + bytes_read [res]
  ∧ match c with
    | Seek _ _ => (res = inl OSError ∨ ∃ msg, res = inl (ValueError msg)) ∧ self' = self
    | _ => True
    end.
Proof.
  intros Hs. destruct c as [size|offset whence|]; cbn.
  - unfold fmap_outcome, bind, inherited, tell.
    pose proof (read_advances size (base self)) as Hadv.
    destruct (read size (base self)) as [[e|d] s']; cbn in *; rewrite Hadv;
      repeat split; auto; lia.
  - unfold fmap_outcome, bind, seek, seekable. rewrite Hs.
    destruct (existsb _ _); cbn; unfold tell; repeat split; eauto; lia.
  - unfold tell. cbn. repeat split; auto; lia.
Qed.

Lemma bytes_read_cons res results :
  bytes_read (res :: results) = bytes_read [res] + bytes_read results.
Proof. destruct res as [e|[d|z|]]; cbn; lia. Qed.

Lemma bytes_read_nonneg results : 0 ≤ bytes_read results.
Proof.
  induction results as [|res results IH]; [cbn; lia|].
  rewrite bytes_read_cons.
  destruct res as [e|[d|z|]]; cbn; try lia.
  pose proof (py_len_nonneg d). lia.
Qed.

Lemma run_unseekable requests_get cs : ∀ self,
  _seekable self = false →
  _seekable (snd (run requests_get cs self)) = false
  ∧ tell (snd (run requests_get cs self))
    = tell self + bytes_read (fst (run requests_get cs self)).
Proof.
  induction cs as [|c cs IH]; intros self Hs; cbn [run].
  - cbn. split; [done|lia].
  - pose proof (exec_unseekable requests_get c self Hs) as Hc.
    destruct (exec requests_get c self) as [res self1].
    destruct Hc as (Hs1 & Ht1 & _).
    destruct (IH self1 Hs1) as (Hs2 & Ht2).
    destruct (run requests_get cs self1) as [more self2].
    cbn [fst snd] in *.
    split; [done|]. rewrite (bytes_read_cons res more), Ht2, Ht1. lia.
Qed.

(** ** Rejected seeks *)

(** C7. [seek] first checks [whence]: a value outside {START, CURRENT, END}
    raises [ValueError] (the InvalidArgument of the specification), whatever
    the capability flag.  For a valid [whence] and a capability flag that is
    off, [seek] raises [OSError] (NotSeekable: the generic class of
    unsupported input/output operations).  In both cases the instance is left
    as it was.  With the flag off, after any calls of [read], [seek] and
    [close], [tell()] is the initial cursor plus the number of bytes the
    reads returned, so it never decreases, and the flag stays off. *)
Theorem seek_rejected requests_get self offset whence :
  (¬ (whence = START ∨ whence = CURRENT ∨ whence = END) →
   ∃ msg, seek requests_get offset whence self = (inl (ValueError msg), self))
  ∧ (whence = START ∨ whence = CURRENT ∨ whence = END →
     seekable self = false →
     seek requests_get offset whence self = (inl OSError, self))
  ∧ (seekable self = false →
     ∀ cs,
       let after := snd (run requests_get cs self) in
       let results := fst (run requests_get cs self) in
       tell after = tell self + bytes_read results
       ∧ tell self ≤ tell after
       ∧ seekable after = false).
Proof.
  split; [|split].
  - intros Hw. rewrite <- whence_choices_spec in Hw.
    apply not_true_is_false in Hw.
    unfold seek. rewrite Hw. cbn. eauto.
  - intros Hw Hs. rewrite <- whence_choices_spec in Hw.
    unfold seek. rewrite Hw, Hs. reflexivity.
  - intros Hs cs after results. subst after results. unfold seekable in *.
    destruct (run_unseekable requests_get cs self Hs) as (Hs' & Ht).
    pose proof (bytes_read_nonneg (fst (run requests_get cs self))).
    repeat split; [done|lia|done].
Qed.

Lemma seek_rejected_witness :
  (∃ msg, seek plain_server 0 7 plain_reader = (inl (ValueError msg), plain_reader))
  ∧ seek plain_server 5 CURRENT plain_reader = (inl OSError, plain_reader)
  ∧ tell (snd (run plain_server [Read 10; Seek 3 START; Read 100] plain_reader))
    = tell plain_reader
      + bytes_read (fst (run plain_server [Read 10; Seek 3 START; Read 100] plain_reader)).
Proof.
  destruct (seek_rejected plain_server plain_reader 0 7) as (H1 & _ & _).
  destruct (seek_rejected plain_server plain_reader 5 CURRENT) as (_ & H2 & H3).
  split; [|split].
  - apply H1. unfold START, CURRENT, END. lia.
  - apply H2; [right; left; reflexivity | reflexivity].
  - apply (H3 eq_refl [Read 10; Seek 3 START; Read 100]).
Defined.

(** ** Reads without a handle *)

(** C8. Once the handle is gone every [read] returns the empty result
    [''] and raises nothing, whatever the size, and leaves the instance as
    it is, so the same holds for all later reads.  The handle is gone after
    [close], and after a [seek] whose new request was answered with a
    non-success status. *)
Theorem read_without_handle requests_get :
  (∀ self size,
     response self = None →
     read size self = (inr (PyStr ""), self) ∧ is_empty (fst (read size self)))
  ∧ (∀ self sizes,
       let closed := snd (close self) in
       response closed = None
       ∧ reads sizes closed = (map (λ _, inr (PyStr "")) sizes, closed))
  ∧ (∀ self offset whence t sizes,
       seekable self = true →
       (whence = START ∧ t = offset
        ∨ whence = CURRENT ∧ t = tell self + offset
        ∨ whence = END ∧ t = content_length self + offset) →
       let p := _clamp t 0 (content_length self) in
       tell self ≠ p →
       ok (reopened requests_get self p) = false →
       let broken := base (snd (seek requests_get offset whence self)) in
       response broken = None
       ∧ reads sizes broken = (map (λ _, inr (PyStr "")) sizes, broken)).
Proof.
  split; [|split].
  - intros self size H. rewrite (read_closed size self H).
    split; [reflexivity|]. exists (PyStr ""). split; reflexivity.
  - intros self sizes closed.
    assert (H : response closed = None) by reflexivity.
    split; [exact H|]. apply reads_closed, H.
  - intros self offset whence t sizes Hs Ht p Hp Hok broken.
    assert (H : response broken = None).
    { subst broken. unfold seekable, tell in *.
      rewrite (seek_unfold requests_get self offset whence t Hs Ht). cbn zeta.
      fold p. destruct (Z.eqb_spec (_current_pos (base self)) p); [done|].
      cbn. fold p. rewrite Hok. reflexivity. }
    split; [exact H|]. apply reads_closed, H.
Qed.

Lemma read_without_handle_witness :
  read 10 (snd (close alphabet_base)) = (inr (PyStr ""), snd (close alphabet_base))
  ∧ reads [1; -1; 0]
      (base (snd (seek alphabet_server 100 START alphabet_reader)))
    = ([inr (PyStr ""); inr (PyStr ""); inr (PyStr "")],
       base (snd (seek alphabet_server 100 START alphabet_reader))).
Proof.
  destruct (read_without_handle alphabet_server) as (H1 & _ & H3).
  split.
  - apply (H1 (snd (close alphabet_base)) 10). reflexivity.
  - apply (H3 alphabet_reader 100 START 100 [1; -1; 0]).
    + reflexivity.
    + left. split; reflexivity.
    + vm_compute. discriminate.
    + vm_compute. reflexivity.
Defined.

(** ** Failed seeks *)

(** C10. A [seek] to a target other than the cursor whose new request is
    answered with a non-success status has already moved the cursor to the
    clamped target and dropped the buffer and the iterator: it returns the
    target, [tell()] is then the target and not the position before the
    seek, and the handle is gone. *)
Theorem failed_seek_moves_cursor requests_get self offset whence t :
  seekable self = true →
  (whence = START ∧ t = offset
   ∨ whence = CURRENT ∧ t = tell self + offset
   ∨ whence = END ∧ t = content_length self + offset) →
  let p := _clamp t 0 (content_length self) in
  tell self ≠ p →
  ok (reopened requests_get self p) = false →
  let after := snd (seek requests_get offset whence self) in
  fst (seek requests_get offset whence self) = inr p
  ∧ tell after = p
  ∧ tell after ≠ tell self
  ∧ _read_buffer (base after) = None
  ∧ _read_iter (base after) = None
  ∧ response (base after) = None.
Proof.
  intros Hs Ht p Hp Hok after. subst after. unfold seekable, tell in *.
  rewrite (seek_unfold requests_get self offset whence t Hs Ht). cbn zeta.
  fold p. destruct (Z.eqb_spec (_current_pos (base self)) p); [done|].
  cbn. fold p. rewrite Hok. repeat split; auto.
Qed.

Lemma failed_seek_moves_cursor_witness :
  fst (seek alphabet_server 0 END alphabet_reader) = inr 26
  ∧ tell (snd (seek alphabet_server 0 END alphabet_reader)) = 26
  ∧ response (base (snd (seek alphabet_server 0 END alphabet_reader))) = None.
Proof.
  destruct (failed_seek_moves_cursor alphabet_server alphabet_reader 0 END 26)
    as (H1 & H2 & _ & _ & _ & H3).
  - reflexivity.
  - right. right. split; reflexivity.
  - vm_compute. discriminate.
  - vm_compute. reflexivity.
  - auto.
Defined.

(** C4, as the code has it.  A [seek] whose new request is answered with a
    non-success status raises nothing: it returns the clamped target, and
    the handle is set to [None].  An [HTTPError] with the status code and
    the reason of the response is raised by the constructors, when the
    first response is not a success. *)
Theorem seek_failure_is_silent requests_get :
  (∀ self offset whence t,
     seekable self = true →
     (whence = START ∧ t = offset
      ∨ whence = CURRENT ∧ t = tell self + offset
      ∨ whence = END ∧ t = content_length self + offset) →
     let p := _clamp t 0 (content_length self) in
     tell self ≠ p →
     ok (reopened requests_get self p) = false →
     seek requests_get offset whence self = (inr p, moved requests_get self p)
     ∧ response (base (moved requests_get self p)) = None)
  ∧ (∀ url mode buffer_size kerberos user password,
       let r := requests_get []
                  (mkRequest url (choose_auth kerberos user password) _HEADERS) in
       ok r = false →
       SeekableBufferedInputBase_init requests_get
         url mode buffer_size kerberos user password
       = inl (HTTPError (status_code r) (reason r))
       ∧ BufferedInputBase_init requests_get
           url mode buffer_size kerberos user password
         = inl (HTTPError (status_code r) (reason r))).
Proof.
  split.
  - intros self offset whence t Hs Ht p Hp Hok. unfold seekable, tell in *.
    rewrite (seek_unfold requests_get self offset whence t Hs Ht). cbn zeta.
    fold p. destruct (Z.eqb_spec (_current_pos (base self)) p); [done|].
    split; [reflexivity|]. unfold moved. cbn. rewrite Hok. reflexivity.
  - intros url0 mode0 bs k u pw r Hok.
    unfold SeekableBufferedInputBase_init, BufferedInputBase_init.
    change (partial_request_headers None) with _HEADERS. fold r.
    rewrite Hok. unfold ok in Hok. unfold raise_for_status in *.
    destruct ((400 <=? status_code r) && (status_code r <? 600));
      [split; reflexivity|discriminate].
Qed.

Lemma seek_failure_is_silent_witness :
  seek alphabet_server 26 START alphabet_reader
  = (inr 26, moved alphabet_server alphabet_reader 26)
  ∧ response (base (moved alphabet_server alphabet_reader 26)) = None.
Proof.
  destruct (seek_failure_is_silent alphabet_server) as (H & _).
  apply (H alphabet_reader 26 START 26).
  - reflexivity.
  - left. split; reflexivity.
  - vm_compute. discriminate.
  - vm_compute. reflexivity.
Defined.

(** C4 as stated fails: the request for the range from 26 is answered with
    416, and [seek] returns 26 instead of raising [HTTPError]. *)
Lemma seek_failure_not_raised :
  status_code (reopened alphabet_server alphabet_reader 26) = 416
  ∧ ok (reopened alphabet_server alphabet_reader 26) = false
  ∧ fst (seek alphabet_server 26 START alphabet_reader) = inr 26
  ∧ ∀ status why,
      fst (seek alphabet_server 26 START alphabet_reader)
      ≠ inl (HTTPError status why).
Proof.
  assert (H : fst (seek alphabet_server 26 START alphabet_reader) = inr 26)
    by (vm_compute; reflexivity).
  split; [vm_compute; reflexivity|].
  split; [vm_compute; reflexivity|].
  split; [exact H|].
  intros status why. rewrite H. discriminate.
Qed.

(** ** The capability flag *)

(** C3, as the code has it.  When the constructor returns an instance, its
    capability flag is on exactly when the first response has a
    [Content-Length] header whose value is an integer literal that is not
    negative, and an [Accept-Ranges] header whose value, lower-cased, is
    ["bytes"]. *)
Theorem seekable_flag requests_get url mode buffer_size kerberos user password self :
  SeekableBufferedInputBase_init requests_get
    url mode buffer_size kerberos user password = inr self →
  let h := headers (requests_get []
             (mkRequest url (choose_auth kerberos user password) _HEADERS)) in
  seekable self = true
  ↔ (∃ v n, headers_get h "Content-Length" = Some v ∧ py_int v = Some n ∧ 0 ≤ n)
    ∧ (∃ a, headers_get h "Accept-Ranges" = Some a ∧ lower a = "bytes").
Proof.
  intros Hinit h. subst h.
  unfold SeekableBufferedInputBase_init in Hinit.
  change (partial_request_headers None) with _HEADERS in Hinit.
  cbv zeta in Hinit.
  set (r := requests_get [] _) in *.
  unfold ok in Hinit.
  destruct (raise_for_status r); [discriminate|].
  unfold parse_content_length, ranges_not_accepted in Hinit.
  remember (headers_get (headers r) "Content-Length") as cl eqn:Hcl.
  remember (headers_get (headers r) "Accept-Ranges") as ar eqn:Har.
  unfold seekable.
  destruct cl as [v|].
  - destruct (py_int v) as [n|] eqn:Hn; [|discriminate].
    injection Hinit as <-. cbn [_seekable].
    destruct ar as [a|]; cbn [default from_option id].
    + destruct (String.eqb_spec (lower a) "bytes") as [Ha|Ha]; cbn [negb].
      * destruct (Z.ltb_spec n 0) as [Hneg|Hpos].
        -- split; [discriminate|].
           intros ((v' & n' & Hv' & Hn' & Hpos) & _).
           assert (n' = n) by congruence. lia.
        -- split; [|reflexivity].
           intros _. split; [exists v, n|exists a]; auto.
      * split; [discriminate|].
        intros (_ & a' & Ha' & Hl). congruence.
    + split; [|intros (_ & a' & Ha' & _); discriminate].
      change (lower "none" =? "bytes")%string with false.
      discriminate.
  - injection Hinit as <-. cbn [_seekable].
    split.
    + change (-1 <? 0) with true. destruct (negb _); discriminate.
    + intros ((v' & n' & Hv' & _) & _). discriminate.
Qed.

Lemma seekable_flag_witness :
  seekable alphabet_reader = true
  ↔ (∃ v n, headers_get seekable_headers "Content-Length" = Some v
            ∧ py_int v = Some n ∧ 0 ≤ n)
    ∧ (∃ a, headers_get seekable_headers "Accept-Ranges" = Some a
            ∧ lower a = "bytes").
Proof.
  apply (seekable_flag alphabet_server "http://host/abc" "r"
           DEFAULT_BUFFER_SIZE false None None alphabet_reader).
  vm_compute. reflexivity.
Defined.

(** C3 as stated fails: with [Accept-Ranges: Bytes] the value is not
    exactly ["bytes"], and the flag is on. *)
Lemma capital_token_is_seekable :
  ∃ self,
    SeekableBufferedInputBase_init capital_server "http://host/abc" "r"
      DEFAULT_BUFFER_SIZE false None None = inr self
    ∧ headers_get (headers (capital_server [] first_request)) "Accept-Ranges"
      = Some "Bytes"
    ∧ "Bytes" ≠ "bytes"
    ∧ seekable self = true.
Proof.
  eexists. split; [vm_compute; reflexivity|].
  split; [vm_compute; reflexivity|]. split; [discriminate|reflexivity].
Qed.

(** ** Bounded reads *)

(** What the filling loop does: it pulls the least number [k] of chunks
    that brings the buffer to [size] bytes, or all of them when there are
    not enough. *)
Lemma fill_buffer_spec chunks : ∀ buf size,
  ∃ k : nat,
    (k ≤ length chunks)%nat
    ∧ (∀ j : nat, (j < k)%nat →
         Z.of_nat (length (buf ++ concat (take j chunks))) < size)
    ∧ (size ≤ Z.of_nat (length (buf ++ concat (take k chunks)))
       ∧ fill_buffer buf chunks size
         = (buf ++ concat (take k chunks), drop k chunks, true)
       ∨ Z.of_nat (length (buf ++ concat (take k chunks))) < size
         ∧ k = length chunks
         ∧ fill_buffer buf chunks size
           = (buf ++ concat (take k chunks), [], false)).
Proof.
  induction chunks as [|c chunks IH]; intros buf size; cbn [fill_buffer].
  - exists 0%nat. cbn. rewrite app_nil_r.
    split; [lia|]. split; [intros j Hj; lia|].
    destruct (Z.ltb_spec (Z.of_nat (length buf)) size); [right|left]; auto.
  - destruct (Z.ltb_spec (Z.of_nat (length buf)) size) as [Hlt|Hge].
    + destruct (IH (buf ++ c) size) as (k & Hk & Hmin & Hres).
      exists (S k). cbn [take concat length drop].
      rewrite app_assoc.
      split; [lia|]. split.
      * intros [|j] Hj; cbn [take concat].
        -- rewrite app_nil_r. exact Hlt.
        -- rewrite app_assoc. apply Hmin. lia.
      * destruct Hres as [(Hsz & ->)|(Hsz & -> & ->)]; [left|right]; auto.
    + exists 0%nat. cbn. rewrite app_nil_r.
      split; [lia|]. split; [intros j Hj; lia|]. left. auto.
Qed.

Lemma fill_buffer_keeps chunks : ∀ buf size buf' rest enough,
  fill_buffer buf chunks size = (buf', rest, enough) →
  buf' ++ concat rest = buf ++ concat chunks
  ∧ (enough = true → size ≤ Z.of_nat (length buf'))
  ∧ (enough = false → rest = [] ∧ Z.of_nat (length buf') < size).
Proof.
  intros buf size buf' rest enough Hfill.
  destruct (fill_buffer_spec chunks buf size) as (k & Hk & _ & Hres).
  destruct Hres as [(Hsz & Heq)|(Hsz & -> & Heq)];
    rewrite Heq in Hfill; injection Hfill as <- <- <-.
  - rewrite <- app_assoc, <- concat_app, take_drop.
    split; [reflexivity|]. split; [intros _; exact Hsz|discriminate].
  - rewrite firstn_all in *. cbn [concat]. rewrite app_nil_r.
    split; [reflexivity|]. split; [discriminate|intros _; auto].
Qed.

(** [read] for a positive size, on an instance with a handle. *)
Lemma read_bounded_unfold self r size :
  response self = Some r → 0 < size → buffer_ready self →
  read size self
  = let '(buf, rest, enough) := fill_buffer (buffered self) (raw r) size in
    let it := match _read_iter self with
              | None => Some (IterContent (buffer_size self))
              | Some c => Some c
              end in
    if enough then
      (inr (PyBytes (take (Z.to_nat size) buf)),
       mkBase (Some (with_raw r rest)) (buffer_size self) (mode self)
              (Some (drop (Z.to_nat size) buf)) it
              (_current_pos self + Z.of_nat (length (take (Z.to_nat size) buf)))
              (requests_log self))
    else
      (inr (PyBytes buf),
       mkBase (Some (with_raw r rest)) (buffer_size self) (mode self)
              (Some []) it
              (_current_pos self + Z.of_nat (length buf))
              (requests_log self)).
Proof.
  intros Hr Hsize Hready. unfold read, buffered. rewrite Hr.
  destruct (Z.eqb_spec size 0); [lia|].
  destruct (Z.ltb_spec size 0); [lia|].
  destruct (_read_iter self) as [it|] eqn:Hit.
  - destruct Hready as [Hnone|(buf & Hbuf)]; [congruence|].
    rewrite Hbuf. cbn [default from_option id].
    destruct (fill_buffer buf (raw r) size) as [[buf' rest] [|]];
      unfold set_current_pos, set_read_buffer, set_response; cbn;
      rewrite ?Hit; reflexivity.
  - cbn.
    destruct (fill_buffer [] (raw r) size) as [[buf' rest] [|]];
      unfold set_current_pos, set_read_buffer, set_response; cbn; reflexivity.
Qed.

Lemma buffered_after_read resp bs md d it pos log :
  buffered (mkBase resp bs md (Some d)
              (match it with None => Some (IterContent bs) | Some c => Some c end)
              pos log) = d.
Proof. destruct it; reflexivity. Qed.

(** The constructor returns an instance whose buffer is ready, and [read]
    and [close] keep it so. *)
Lemma init_ready requests_get url mode buffer_size kerberos user password self :
  BufferedInputBase_init requests_get url mode buffer_size kerberos user password
  = inr self →
  buffer_ready self.
Proof.
  unfold BufferedInputBase_init. cbv zeta.
  destruct (if ok _ then None else _); [discriminate|].
  intros [= <-]. left. reflexivity.
Qed.


Lemma close_keeps_ready self :
  buffer_ready self → buffer_ready (snd (close self)).
Proof. intros Hready. exact Hready. Qed.

(** C5. [read(size)] with [size > 0] on an instance with a handle pulls
    chunks into the buffer until it holds [size] bytes or the chunks are
    exhausted: it pulls the least number [k] of chunks that is enough, or
    all of them.  In the first case it returns exactly the first [size]
    bytes of the buffer, advances the cursor by [size] and keeps the rest
    buffered; in the second it returns the whole buffer, fewer than [size]
    bytes, advances the cursor by that many and raises nothing.  For the
    alphabet served in chunks of 4 bytes, [read(10)], [read(10)],
    [read(100)], [read(1)] return the first ten letters, the next ten, the
    last six and the empty result. *)
Theorem read_bounded :
  results_of open_alphabet (reads [10; 10; 100; 1])
  = Some [inr (PyBytes (B "abcdefghij")); inr (PyBytes (B "klmnopqrst"));
          inr (PyBytes (B "uvwxyz")); inr (PyBytes [])]
  ∧ ∀ self r size,
      response self = Some r → 0 < size → buffer_ready self →
      ∃ k : nat,
        (k ≤ length (raw r))%nat
        ∧ let buf := buffered self ++ concat (take k (raw r)) in
          let after := snd (read size self) in
          (∀ j : nat, (j < k)%nat →
             Z.of_nat (length (buffered self ++ concat (take j (raw r)))) < size)
          ∧ response after = Some (with_raw r (drop k (raw r)))
          ∧ (size ≤ Z.of_nat (length buf)
             ∧ fst (read size self) = inr (PyBytes (take (Z.to_nat size) buf))
             ∧ Z.of_nat (length (take (Z.to_nat size) buf)) = size
             ∧ _current_pos after = _current_pos self + size
             ∧ buffered after = drop (Z.to_nat size) buf
             ∨ Z.of_nat (length buf) < size
               ∧ k = length (raw r)
               ∧ fst (read size self) = inr (PyBytes buf)
               ∧ _current_pos after = _current_pos self + Z.of_nat (length buf)
               ∧ buffered after = []).
Proof.
  split; [vm_compute; reflexivity|].
  intros self r size Hr Hsize Hready.
  rewrite (read_bounded_unfold self r size Hr Hsize Hready).
  destruct (fill_buffer_spec (raw r) (buffered self) size) as (k & Hk & Hmin & Hres).
  exists k. split; [exact Hk|]. cbn zeta. split; [exact Hmin|].
  destruct Hres as [(Hsz & ->)|(Hsz & Hall & ->)];
    cbn [fst snd response _current_pos]; rewrite buffered_after_read.
  - split; [reflexivity|]. left.
    assert (Hlen : Z.of_nat (length (take (Z.to_nat size)
                     (buffered self ++ concat (take k (raw r))))) = size).
    { rewrite length_take. lia. }
    rewrite Hlen. repeat split; auto.
  - split; [rewrite Hall, drop_all; reflexivity|]. right.
    repeat split; auto.
Qed.

Lemma read_bounded_witness :
  ∃ k : nat,
    (k ≤ 7)%nat
    ∧ fst (read 10 alphabet_base)
      = inr (PyBytes (take 10 (concat (take k (raw (alphabet_server [] first_request))))))
    ∧ _current_pos (snd (read 10 alphabet_base)) = 10.
Proof.
  destruct read_bounded as (_ & H).
  destruct (H alphabet_base (alphabet_server [] first_request) 10)
    as (k & Hk & _ & _ & [(_ & Hres & _ & Hpos & _)|(Hshort & Hall & _)]).
  - reflexivity.
  - lia.
  - left. reflexivity.
  - exists k. split; [exact Hk|]. split; [exact Hres|exact Hpos].
  - exfalso. rewrite Hall in Hshort. vm_compute in Hshort. discriminate.
Defined.

(** ** Reading to the end *)

Lemma read_until_empty_rest fuel : ∀ self r n,
  response self = Some r → 0 < n → buffer_ready self →
  (length (buffered self ++ concat (raw r)) < fuel)%nat →
  read_until_empty fuel n self = Some (inr (buffered self ++ concat (raw r))).
Proof.
  induction fuel as [|fuel IH]; intros self r n Hr Hn Hready Hfuel; [lia|].
  cbn [read_until_empty].
  rewrite (read_bounded_unfold self r n Hr Hn Hready).
  destruct (fill_buffer (buffered self) (raw r) n) as [[buf rest] enough] eqn:Hfill.
  destruct (fill_buffer_keeps _ _ _ _ _ _ Hfill) as (Hkeep & Henough & Hshort).
  rewrite <- Hkeep in *.
  destruct enough; cbv beta iota zeta.
  - specialize (Henough eq_refl).
    assert (Hlen : length (take (Z.to_nat n) buf) = Z.to_nat n).
    { rewrite length_take. lia. }
    assert (Htruth : py_truth (PyBytes (take (Z.to_nat n) buf)) = true).
    { unfold py_truth. cbn [py_len]. rewrite Hlen.
      destruct (Z.eqb_spec (Z.of_nat (Z.to_nat n)) 0); [lia|reflexivity]. }
    rewrite Htruth.
    match goal with
    | |- context [read_until_empty fuel n ?s] =>
        rewrite (IH s (with_raw r rest) n eq_refl Hn);
          [| right; eexists; reflexivity
           | rewrite buffered_after_read; cbn [raw with_raw] ];
          rewrite ?buffered_after_read; cbn [raw with_raw py_bytes]
    end.
    + rewrite app_assoc, take_drop. reflexivity.
    + rewrite length_app, length_drop.
      rewrite length_app in Hfuel. lia.
  - destruct (Hshort eq_refl) as (-> & Hlt). cbn [concat] in *.
    rewrite app_nil_r in *.
    unfold py_truth. cbn [py_len py_bytes].
    destruct (Z.eqb_spec (Z.of_nat (length buf)) 0) as [Hz|Hnz]; cbn [negb].
    + destruct buf; [reflexivity|discriminate].
    + match goal with
      | |- context [read_until_empty fuel n ?s] =>
          rewrite (IH s (with_raw r []) n eq_refl Hn);
            [| right; eexists; reflexivity
             | rewrite buffered_after_read; cbn [raw with_raw concat length app]; lia ];
            rewrite ?buffered_after_read; cbn [raw with_raw concat app]
      end.
      rewrite app_nil_r. reflexivity.
Qed.

(** C6, as the code has it.  For every [n > 0] and every chunking of the
    body, calling [read(n)] until it returns an empty result, and
    concatenating what was returned, gives the body of the response byte
    for byte; the loop ends within one call more than there are bytes. *)
Theorem read_until_empty_whole requests_get url mode buffer_size kerberos user password
    self n fuel :
  let r := requests_get []
             (mkRequest url (choose_auth kerberos user password) _HEADERS) in
  BufferedInputBase_init requests_get url mode buffer_size kerberos user password
  = inr self →
  0 < n →
  (length (concat (raw r)) < fuel)%nat →
  read_until_empty fuel n self = Some (inr (concat (raw r))).
Proof.
  intros r Hinit Hn Hfuel. unfold BufferedInputBase_init in Hinit. fold r in Hinit.
  destruct (if ok r then None else raise_for_status r); [discriminate|].
  injection Hinit as <-.
  match goal with
  | |- read_until_empty fuel n ?s = _ =>
      exact (read_until_empty_rest fuel s r n eq_refl Hn (or_introl eq_refl) Hfuel)
  end.
Qed.

Lemma read_until_empty_whole_witness :
  read_until_empty 27 3 alphabet_base = Some (inr alphabet).
Proof.
  apply (read_until_empty_whole alphabet_server "http://host/abc" "r"
           DEFAULT_BUFFER_SIZE false None None alphabet_base 3 27).
  - reflexivity.
  - lia.
  - vm_compute. lia.
Defined.

(** C6 as stated fails for [n = 0]: [read(0)] returns the empty result at
    once, so the loop ends with nothing, while the resource is the
    alphabet. *)
Lemma read_zero_reconstructs_nothing :
  (∀ fuel, read_until_empty (S fuel) 0 alphabet_base = Some (inr []))
  ∧ concat (raw (alphabet_server [] first_request)) = alphabet
  ∧ alphabet ≠ [].
Proof.
  split; [intros fuel; reflexivity|].
  split; [vm_compute; reflexivity|discriminate].
Qed.

(** ** Instances stay consistent with the resource *)

Lemma consistent_ready total self :
  base_consistent total self → buffer_ready self.
Proof.
  intros [Hbuf _ _]. unfold buffer_ready.
  destruct (_read_iter self); [|left; reflexivity].
  destruct (_read_buffer self) as [buf|]; [right; eauto|contradiction].
Qed.

Lemma read_consistent total size self :
  base_consistent total self → base_consistent total (snd (read size self)).
Proof.
  intros Hc. pose proof (consistent_ready _ _ Hc) as Hready.
  destruct Hc as [Hbuf Hrange Hpos].
  destruct (response self) as [r|] eqn:Hr;
    [|rewrite (read_closed size self Hr); cbn [snd]; split; auto;
      intros r' Hr'; congruence].
  specialize (Hpos r eq_refl).
  destruct (Z.lt_trichotomy size 0) as [Hneg|[->|Hsize]].
  - unfold read. rewrite Hr.
    destruct (Z.eqb_spec size 0); [lia|]. destruct (Z.ltb_spec size 0); [|lia].
    cbn. split; cbn.
    + exact Hbuf.
    + lia.
    + intros r' [= <-]. cbn. unfold buffered in *. cbn. lia.
  - unfold read. rewrite Hr. cbn. split; auto. rewrite Hr. intros r' [= <-]. lia.
  - rewrite (read_bounded_unfold self r size Hr Hsize Hready).
    destruct (fill_buffer (buffered self) (raw r) size) as [[buf rest] enough] eqn:Hfill.
    destruct (fill_buffer_keeps _ _ _ _ _ _ Hfill) as (Hkeep & Henough & Hshort).
    assert (Hlen : (length buf + length (concat rest)
                    = length (buffered self) + length (concat (raw r)))%nat).
    { rewrite <- !length_app, Hkeep. reflexivity. }
    destruct enough; cbv beta iota zeta; cbn [snd].
    + specialize (Henough eq_refl).
      assert (Htake : length (take (Z.to_nat size) buf) = Z.to_nat size).
      { rewrite length_take. lia. }
      split; cbn [_read_iter _read_buffer _current_pos response].
      * destruct (_read_iter self); exact I.
      * lia.
      * intros r' [= <-]. rewrite buffered_after_read, length_drop.
        cbn [raw with_raw]. lia.
    + destruct (Hshort eq_refl) as (-> & Hlt). cbn [concat length] in Hlen.
      split; cbn [_read_iter _read_buffer _current_pos response].
      * destruct (_read_iter self); exact I.
      * lia.
      * intros r' [= <-]. rewrite buffered_after_read.
        cbn [raw with_raw concat length]. lia.
Qed.

Lemma init_consistent requests_get content url mode buffer_size kerberos user password self :
  serves requests_get content →
  SeekableBufferedInputBase_init requests_get
    url mode buffer_size kerberos user password = inr self →
  consistent content self.
Proof.
  intros Hserves Hinit.
  unfold SeekableBufferedInputBase_init in Hinit.
  specialize (Hserves [] url (choose_auth kerberos user password) None).
  cbv zeta in Hserves, Hinit.
  set (r := requests_get [] _) in *.
  destruct (ok r) eqn:Hok;
    [|unfold ok in Hok; destruct (raise_for_status r); discriminate].
  destruct (Hserves eq_refl) as (Hbody & Hlen).
  destruct (parse_content_length (headers r)) as [n|] eqn:Hn; [|discriminate].
  injection Hinit as <-. split; cbn.
  - intros Hflag. apply Hlen; [reflexivity|].
    destruct (ranges_not_accepted (headers r)); [discriminate|].
    destruct (Z.ltb_spec n 0); [discriminate|lia].
  - split; cbn.
    + exact I.
    + lia.
    + intros r' [= <-]. rewrite Hbody. lia.
Qed.

Lemma seek_consistent requests_get content offset whence self :
  serves requests_get content →
  consistent content self →
  consistent content (snd (seek requests_get offset whence self)).
Proof.
  intros Hserves Hc.
  destruct (existsb (Z.eqb whence) WHENCE_CHOICES) eqn:Hw;
    [|unfold seek; rewrite Hw; exact Hc].
  destruct (_seekable self) eqn:Hs;
    [|unfold seek, seekable; rewrite Hw, Hs; exact Hc].
  destruct Hc as [Hlen Hbase]. rewrite Hs in Hlen.
  apply whence_choices_spec in Hw.
  assert (Ht : ∃ t, whence = START ∧ t = offset
                    ∨ whence = CURRENT ∧ t = _current_pos (base self) + offset
                    ∨ whence = END ∧ t = content_length self + offset).
  { destruct Hw as [-> | [-> | ->]]; eexists; eauto. }
  destruct Ht as (t & Ht).
  rewrite (seek_unfold requests_get self offset whence t Hs Ht). cbn zeta.
  set (p := _clamp t 0 (content_length self)).
  destruct (_current_pos (base self) =? p);
    [split; [intros _; exact (Hlen eq_refl)|exact Hbase]|].
  assert (Hp : 0 ≤ p ≤ Z.of_nat (length content)).
  { subst p. rewrite (Hlen eq_refl). unfold _clamp. lia. }
  cbn [snd]. split; [intros _; exact (Hlen eq_refl)|]. unfold moved. cbn [base].
  split; cbn [_read_iter _read_buffer _current_pos response].
  - exact I.
  - exact Hp.
  - fold (reopened requests_get self p).
    destruct (ok (reopened requests_get self p)) eqn:Hok; [|discriminate].
    intros r' [= <-]. unfold buffered. cbn [_read_iter length].
    pose proof (Hserves (requests_log (base self)) (url self) (auth self) (Some p))
      as Hbody.
    cbv zeta in Hbody. fold (reopened requests_get self p) in Hbody.
    rewrite (Hbody Hok Hp), length_drop. lia.
Qed.

Lemma exec_consistent requests_get content c self :
  serves requests_get content →
  consistent content self →
  consistent content (snd (exec requests_get c self)).
Proof.
  intros Hserves Hc. destruct c as [size|offset whence|].
  - destruct Hc as [Hlen Hbase].
    pose proof (read_consistent _ size _ Hbase) as Hread.
    cbn. unfold fmap_outcome, bind, inherited.
    destruct (read size (base self)) as [[e|d] s']; cbn in *; split; assumption.
  - pose proof (seek_consistent requests_get content offset whence self Hserves Hc)
      as Hseek.
    cbn. unfold fmap_outcome, bind.
    destruct (seek requests_get offset whence self) as [[e|z] s']; exact Hseek.
  - destruct Hc as [Hlen [Hbuf Hrange Hpos]]. cbn. split; [exact Hlen|].
    split; cbn; auto. discriminate.
Qed.

Lemma reachable_consistent requests_get content self :
  serves requests_get content →
  reachable requests_get self →
  consistent content self.
Proof.
  intros Hserves Hreach. induction Hreach as [? ? ? ? ? ? self Hinit|c self _ IH].
  - exact (init_consistent _ _ _ _ _ _ _ _ _ Hserves Hinit).
  - exact (exec_consistent _ _ c _ Hserves IH).
Qed.

Lemma alphabet_server_serves : serves alphabet_server alphabet.
Proof.
  intros log url0 auth0 [p|]; cbv zeta.
  - intros Hok Hp.
    assert (∃ n : nat, p = Z.of_nat n ∧ (n ≤ 26)%nat) as (n & -> & Hn).
    { exists (Z.to_nat p). change (length alphabet) with 26%nat in Hp. lia. }
    clear Hp.
    do 27 (destruct n as [|n];
           [vm_compute in Hok; first [discriminate Hok | vm_compute; reflexivity]|]).
    lia.
  - intros _. split; [vm_compute; reflexivity|].
    intros n Hn _. vm_compute in Hn. injection Hn as <-. reflexivity.
Qed.

Lemma exec_keeps_flags requests_get c self :
  _seekable (snd (exec requests_get c self)) = _seekable self
  ∧ content_length (snd (exec requests_get c self)) = content_length self.
Proof.
  destruct c as [size|offset whence|]; cbn; unfold fmap_outcome, bind.
  - unfold inherited. destruct (read size (base self)) as [[e|d] s']; cbn; auto.
  - unfold seek, _partial_request.
    repeat match goal with
           | |- context [if ?b then _ else _] => destruct b
           end; cbn; auto.
  - auto.
Qed.

Lemma init_length_nonneg requests_get url mode buffer_size kerberos user password self :
  SeekableBufferedInputBase_init requests_get
    url mode buffer_size kerberos user password = inr self →
  _seekable self = true → 0 ≤ content_length self.
Proof.
  unfold SeekableBufferedInputBase_init. cbv zeta.
  destruct (if ok _ then None else _); [discriminate|].
  destruct (parse_content_length _) as [n|]; [|discriminate].
  intros [= <-]. cbn.
  destruct (ranges_not_accepted _); [discriminate|].
  destruct (Z.ltb_spec n 0); [discriminate|lia].
Qed.

Lemma reachable_length_nonneg requests_get self :
  reachable requests_get self →
  _seekable self = true → 0 ≤ content_length self.
Proof.
  intros Hreach. induction Hreach as [? ? ? ? ? ? self Hinit|c self _ IH].
  - exact (init_length_nonneg _ _ _ _ _ _ _ _ Hinit).
  - destruct (exec_keeps_flags requests_get c self) as (-> & ->). exact IH.
Qed.

Lemma read_at_end total self size :
  base_consistent total self → _current_pos self = total →
  is_empty (fst (read size self)).
Proof.
  intros Hc Hend. pose proof (consistent_ready _ _ Hc) as Hready.
  destruct Hc as [_ _ Hpos].
  destruct (response self) as [r|] eqn:Hr.
  - specialize (Hpos r eq_refl).
    assert (Hbuf : buffered self = []) by (apply length_zero_iff_nil; lia).
    assert (Hraw : concat (raw r) = []) by (apply length_zero_iff_nil; lia).
    destruct (Z.lt_trichotomy size 0) as [Hneg|[->|Hsize]].
    + unfold read. rewrite Hr.
      destruct (Z.eqb_spec size 0); [lia|]. destruct (Z.ltb_spec size 0); [|lia].
      cbn. rewrite Hraw. eexists. split; reflexivity.
    + unfold read. rewrite Hr. cbn. eexists. split; reflexivity.
    + rewrite (read_bounded_unfold self r size Hr Hsize Hready).
      destruct (fill_buffer (buffered self) (raw r) size)
        as [[buf rest] enough] eqn:Hfill.
      destruct (fill_buffer_keeps _ _ _ _ _ _ Hfill) as (Hkeep & Henough & _).
      rewrite Hbuf, Hraw in Hkeep. apply app_eq_nil in Hkeep as (-> & _).
      destruct enough; [specialize (Henough eq_refl); cbn in Henough; lia|].
      cbn. eexists. split; reflexivity.
  - rewrite (read_closed size self Hr). eexists. split; reflexivity.
Qed.

(** ** Seeking *)

(** C2. On an instance with the capability flag on, [seek] with a valid
    [whence] takes as target [offset], the cursor plus [offset], or the
    content length plus [offset]; clamps it into the range from 0 to the
    content length; sets the cursor to the clamped value and returns it.
    When the transport serves a resource and the target lies beyond the
    content length, the result is exactly the content length, and a [read]
    of any size after it returns an empty result. *)
Theorem seek_clamps requests_get self offset whence t :
  reachable requests_get self →
  seekable self = true →
  (whence = START ∧ t = offset
   ∨ whence = CURRENT ∧ t = tell self + offset
   ∨ whence = END ∧ t = content_length self + offset) →
  let p := if t <? 0 then 0
           else if content_length self <? t then content_length self
           else t in
  let after := snd (seek requests_get offset whence self) in
  0 ≤ p ≤ content_length self
  ∧ fst (seek requests_get offset whence self) = inr p
  ∧ tell after = p
  ∧ (∀ content,
       serves requests_get content →
       content_length self < t →
       p = content_length self
       ∧ ∀ size, is_empty (fst (read size (base after)))).
Proof.
  intros Hreach Hs Ht p after. unfold seekable, tell in *.
  pose proof (reachable_length_nonneg _ _ Hreach Hs) as Hnonneg.
  assert (Hp : _clamp t 0 (content_length self) = p).
  { rewrite clamp_cases by exact Hnonneg. reflexivity. }
  assert (Hrange : 0 ≤ p ≤ content_length self).
  { subst p. destruct (Z.ltb_spec t 0); [lia|].
    destruct (Z.ltb_spec (content_length self) t); lia. }
  assert (Hres : fst (seek requests_get offset whence self) = inr p
                 ∧ _current_pos (base after) = p).
  { subst after. rewrite (seek_unfold requests_get self offset whence t Hs Ht).
    cbn zeta. rewrite Hp.
    destruct (Z.eqb_spec (_current_pos (base self)) p); cbn; auto. }
  destruct Hres as (Hfst & Htell).
  split; [exact Hrange|]. split; [exact Hfst|]. split; [exact Htell|].
  intros content Hserves Hbeyond.
  assert (Hend : p = content_length self).
  { subst p. destruct (Z.ltb_spec t 0); [lia|].
    destruct (Z.ltb_spec (content_length self) t); lia. }
  split; [exact Hend|]. intros size.
  pose proof (reachable_consistent _ content _ Hserves Hreach) as Hc.
  pose proof (seek_consistent requests_get content offset whence self Hserves Hc)
    as (_ & Hbase).
  destruct Hc as (Hlen & _).
  apply (read_at_end _ _ size Hbase). fold after.
  rewrite Htell, Hend. exact (Hlen Hs).
Qed.

Lemma alphabet_reader_reachable : reachable alphabet_server alphabet_reader.
Proof.
  apply (reachable_init alphabet_server "http://host/abc" "r"
           DEFAULT_BUFFER_SIZE false None None).
  vm_compute. reflexivity.
Qed.

Lemma seek_clamps_witness :
  fst (seek alphabet_server 100 START alphabet_reader) = inr 26
  ∧ tell (snd (seek alphabet_server 100 START alphabet_reader)) = 26
  ∧ is_empty (fst (read 5 (base (snd (seek alphabet_server 100 START alphabet_reader))))).
Proof.
  destruct (seek_clamps alphabet_server alphabet_reader 100 START 100)
    as (_ & Hfst & Htell & Hend).
  - exact alphabet_reader_reachable.
  - reflexivity.
  - left. split; reflexivity.
  - split; [exact Hfst|]. split; [exact Htell|].
    destruct (Hend alphabet alphabet_server_serves) as (_ & Hread).
    + reflexivity.
    + exact (Hread 5).
Defined.

(** C9. On an instance with the capability flag on, a [seek] whose clamped
    target is the cursor returns the cursor and leaves the whole instance as
    it is - handle, buffer, iterator, cursor - and sends no request: the log
    of requests is the same.  When the transport serves a resource, this is
    the case of [seek(0, CURRENT)] on every instance a client can hold. *)
Theorem seek_to_cursor requests_get self :
  seekable self = true →
  (∀ offset whence t,
     (whence = START ∧ t = offset
      ∨ whence = CURRENT ∧ t = tell self + offset
      ∨ whence = END ∧ t = content_length self + offset) →
     _clamp t 0 (content_length self) = tell self →
     seek requests_get offset whence self = (inr (tell self), self)
     ∧ requests_log (base (snd (seek requests_get offset whence self)))
       = requests_log (base self))
  ∧ (∀ content,
       serves requests_get content →
       reachable requests_get self →
       seek requests_get 0 CURRENT self = (inr (tell self), self)).
Proof.
  intros Hs. unfold seekable, tell in *.
  assert (Hnoop : ∀ offset whence t,
    (whence = START ∧ t = offset
     ∨ whence = CURRENT ∧ t = _current_pos (base self) + offset
     ∨ whence = END ∧ t = content_length self + offset) →
    _clamp t 0 (content_length self) = _current_pos (base self) →
    seek requests_get offset whence self = (inr (_current_pos (base self)), self)).
  { intros offset whence t Ht Hclamp.
    rewrite (seek_unfold requests_get self offset whence t Hs Ht). cbn zeta.
    rewrite Hclamp, Z.eqb_refl. reflexivity. }
  split.
  - intros offset whence t Ht Hclamp.
    rewrite (Hnoop offset whence t Ht Hclamp). split; reflexivity.
  - intros content Hserves Hreach.
    destruct (reachable_consistent _ content _ Hserves Hreach) as (Hlen & [_ Hrange _]).
    apply (Hnoop 0 CURRENT (_current_pos (base self) + 0)).
    + right. left. split; reflexivity.
    + rewrite (Hlen Hs). unfold _clamp. lia.
Qed.

Lemma seek_to_cursor_witness :
  seek alphabet_server (-26) END alphabet_reader = (inr 0, alphabet_reader)
  ∧ seek alphabet_server 0 CURRENT alphabet_reader = (inr 0, alphabet_reader).
Proof.
  destruct (seek_to_cursor alphabet_server alphabet_reader eq_refl) as (H1 & H2).
  split.
  - apply (H1 (-26) END 0).
    + right. right. split; reflexivity.
    + reflexivity.
  - apply (H2 alphabet alphabet_server_serves alphabet_reader_reachable).
Defined.

(** ** Reading everything after a bounded read *)

(** C1, evaluated.  The alphabet is served in chunks of 4 bytes.  After
    [read(10)] the cursor is 10 and the bytes ["kl"] sit in the buffer.
    [read(-1)] then returns ["mnopqrstuvwxyz"], which is what is left in
    [response.raw], without the two buffered bytes, whereas the rest of the
    resource from the cursor, and what bounded reads return from that same
    state, is ["klmnopqrstuvwxyz"].  The buffered bytes stay behind: the
    next [read(2)] returns ["kl"]. *)
Theorem read_all_skips_buffer :
  let self := snd (read 10 alphabet_base) in
  _current_pos self = 10
  ∧ buffered self = B "kl"
  ∧ fst (read (-1) self) = inr (PyBytes (B "mnopqrstuvwxyz"))
  ∧ drop 10 alphabet = B "klmnopqrstuvwxyz"
  ∧ read_until_empty 17 3 self = Some (inr (B "klmnopqrstuvwxyz"))
  ∧ _current_pos (snd (read (-1) self)) = 24
  ∧ fst (read 2 (snd (read (-1) self))) = inr (PyBytes (B "kl")).
Proof. vm_compute. repeat split; reflexivity. Qed.

(** On an instance that has not made its iterator yet, [read(-1)] does
    return the whole body. *)
Lemma read_all_fresh self r :
  response self = Some r →
  fst (read (-1) self) = inr (PyBytes (concat (raw r))).
Proof. intros Hr. unfold read. rewrite Hr. reflexivity. Qed.

(** * Further properties of the module *)

(** ** [_clamp] *)

(** X1. For [minval ≤ maxval], [_clamp] returns a value in the range, the
    value itself when it already is in the range, and clamping twice is
    clamping once.  When the bounds are crossed, the lower bound wins. *)
Theorem clamp_range value minval maxval :
  (minval ≤ maxval →
   minval ≤ _clamp value minval maxval ≤ maxval
   ∧ (minval ≤ value ≤ maxval → _clamp value minval maxval = value)
   ∧ (value < minval → _clamp value minval maxval = minval)
   ∧ (maxval < value → _clamp value minval maxval = maxval)
   ∧ _clamp (_clamp value minval maxval) minval maxval
     = _clamp value minval maxval)
  ∧ (maxval < minval → _clamp value minval maxval = minval).
Proof. unfold _clamp. split; intros; repeat split; intros; lia. Qed.

Lemma clamp_range_witness :
  0 ≤ _clamp 100 0 26 ≤ 26 ∧ _clamp 100 0 (-1) = 0.
Proof.
  destruct (clamp_range 100 0 26) as (H1 & _).
  destruct (clamp_range 100 0 (-1)) as (_ & H2).
  split; [apply H1; lia|apply H2; lia].
Defined.

(** ** What [seek] can do *)


(** ** What stays fixed *)

Lemma read_frame size self :
  buffer_size (snd (read size self)) = buffer_size self
  ∧ mode (snd (read size self)) = mode self
  ∧ requests_log (snd (read size self)) = requests_log self.
Proof.
  unfold read. destruct (response self) as [r|]; [|auto].
  destruct (size =? 0); [auto|]. destruct (size <? 0); [cbn; auto|].
  destruct (_read_iter self); cbn.
  - destruct (_read_buffer self) as [buf|]; [|auto].
    destruct (fill_buffer buf (raw r) size) as [[buf' rest] [|]]; cbn; auto.
  - destruct (fill_buffer [] (raw r) size) as [[buf' rest] [|]]; cbn; auto.
Qed.

Lemma seek_frame requests_get offset whence self :
  let s := snd (seek requests_get offset whence self) in
  seekable s = seekable self
  ∧ content_length s = content_length self
  ∧ url s = url self ∧ auth s = auth self
  ∧ buffer_size (base s) = buffer_size (base self)
  ∧ mode (base s) = mode (base self).
Proof.
  cbv zeta. unfold seek.
  destruct (negb (existsb _ _)); [cbn; repeat split; reflexivity|].
  destruct (negb (seekable self)); [cbn; repeat split; reflexivity|].
  destruct (if whence =? START then _ else _) as [t|];
    [|cbn; repeat split; reflexivity].
  destruct (negb _); [|cbn; repeat split; reflexivity].
  unfold _partial_request. cbn. destruct (ok _); cbn; repeat split; reflexivity.
Qed.

(** X3. The capability flag, the content length, the URL and the
    credentials found at construction are the same after any calls of
    [read], [seek] and [close], and so are the buffer size and the mode. *)
Theorem run_keeps_configuration requests_get cs : ∀ self,
  let after := snd (run requests_get cs self) in
  seekable after = seekable self
  ∧ content_length after = content_length self
  ∧ url after = url self
  ∧ auth after = auth self
  ∧ buffer_size (base after) = buffer_size (base self)
  ∧ mode (base after) = mode (base self).
Proof.
  induction cs as [|c cs IH]; intros self; cbn [run].
  - cbn. repeat split; reflexivity.
  - assert (Hc : let s := snd (exec requests_get c self) in
              seekable s = seekable self
              ∧ content_length s = content_length self
              ∧ url s = url self ∧ auth s = auth self
              ∧ buffer_size (base s) = buffer_size (base self)
              ∧ mode (base s) = mode (base self)).
    { destruct c as [size|offset whence|]; cbn; unfold fmap_outcome, bind.
      - unfold inherited.
        destruct (read_frame size (base self)) as (Hb & Hm & _).
        destruct (read size (base self)) as [[e|d] s']; cbn in *;
          repeat split; auto.
      - pose proof (seek_frame requests_get offset whence self) as Hf.
        destruct (seek requests_get offset whence self) as [[e|z] s'];
          exact Hf.
      - repeat split; reflexivity. }
    destruct (exec requests_get c self) as [res self1]. cbn [snd] in Hc.
    specialize (IH self1).
    destruct (run requests_get cs self1) as [more self2]. cbn [snd] in *.
    cbv zeta in IH.
    destruct Hc as (H1 & H2 & H3 & H4 & H5 & H6).
    destruct IH as (I1 & I2 & I3 & I4 & I5 & I6).
    repeat split; congruence.
Qed.

(** ** Requests sent *)

Lemma seek_log requests_get offset whence self :
  match fst (seek requests_get offset whence self) with
  | inl _ => snd (seek requests_get offset whence self) = self
  | inr p =>
      tell (snd (seek requests_get offset whence self)) = p
      ∧ requests_log (base (snd (seek requests_get offset whence self)))
        = if tell self =? p then requests_log (base self)
          else requests_log (base self)
               ++ [mkRequest (url self) (auth self)
                     (partial_request_headers (Some p))]
  end.
Proof.
  unfold seek, seekable, tell.
  destruct (existsb (Z.eqb whence) WHENCE_CHOICES) eqn:Hw; cbn [negb];
    [|reflexivity].
  destruct (_seekable self); cbn [negb]; [|reflexivity].
  apply whence_choices_spec in Hw. unfold START, CURRENT, END in *.
  destruct Hw as [-> | [-> | ->]]; cbn [Z.eqb Pos.eqb];
    match goal with
    | |- context [_clamp ?t 0 ?m] => set (p := _clamp t 0 m)
    end;
    (destruct (Z.eqb_spec (_current_pos (base self)) p) as [Heq|Hne]; cbn [negb];
     [cbn; split; [exact Heq|];
      destruct (Z.eqb_spec (_current_pos (base self)) p); [reflexivity|lia]
     |unfold _partial_request; cbn; destruct (ok _); cbn;
      (split; [reflexivity|]);
      destruct (Z.eqb_spec (_current_pos (base self)) p); (lia || reflexivity)]).
Qed.

(** X4. [read] and [close] send no request.  A [seek] that raises, or
    whose result is the cursor, sends none; a [seek] that returns another
    position [p] sends exactly one, to the URL and with the credentials of
    the instance, asking for the range from [p].  Over a run of calls, the
    log grows by the number of seeks that moved the cursor. *)
Theorem requests_accounting requests_get :
  (∀ self size,
     requests_log (snd (read size self)) = requests_log self)
  ∧ (∀ self, requests_log (snd (close self)) = requests_log self)
  ∧ (∀ self offset whence,
       match fst (seek requests_get offset whence self) with
       | inl _ =>
           requests_log (base (snd (seek requests_get offset whence self)))
           = requests_log (base self)
       | inr p =>
           requests_log (base (snd (seek requests_get offset whence self)))
           = if tell self =? p then requests_log (base self)
             else requests_log (base self)
                  ++ [mkRequest (url self) (auth self)
                        (partial_request_headers (Some p))]
       end)
  ∧ (∀ cs self,
       length (requests_log (base (snd (run requests_get cs self))))
       = (length (requests_log (base self))
          + moves (tell self) cs (fst (run requests_get cs self)))%nat).
Proof.
  split; [intros self size; apply read_frame|].
  split; [reflexivity|].
  split.
  { intros self offset whence.
    pose proof (seek_log requests_get offset whence self) as H.
    destruct (fst (seek requests_get offset whence self)); [rewrite H|]; tauto. }
  induction cs as [|c cs IH]; intros self; cbn [run].
  - cbn. lia.
  - assert (Hc :
      let res := fst (exec requests_get c self) in
      let s := snd (exec requests_get c self) in
      ∀ more,
        (length (requests_log (base s)) + moves (tell s) cs more
         = length (requests_log (base self))
           + moves (tell self) (c :: cs) (res :: more))%nat).
    { destruct c as [size|offset whence|]; cbn [exec]; unfold fmap_outcome, bind.
      - unfold inherited.
        pose proof (read_advances size (base self)) as Hadv.
        destruct (read_frame size (base self)) as (_ & _ & Hlog).
        destruct (read size (base self)) as [[e|d] s']; cbn in *; intros more;
          unfold tell; cbn; rewrite Hlog, Hadv;
          rewrite ?Z.add_0_r; reflexivity.
      - pose proof (seek_log requests_get offset whence self) as Hlog.
        destruct (seek requests_get offset whence self) as [[e|p] s'];
          cbn in *; intros more.
        + rewrite Hlog. reflexivity.
        + destruct Hlog as (Htell & ->). rewrite Htell.
          destruct (tell self =? p); [reflexivity|].
          rewrite length_app. cbn. lia.
      - intros more. reflexivity. }
    destruct (exec requests_get c self) as [res self1]. cbn [fst snd] in Hc.
    specialize (IH self1).
    destruct (run requests_get cs self1) as [more self2]. cbn [fst snd] in *.
    rewrite IH. apply Hc.
Qed.

(** ** The headers of a request *)

Lemma string_length_app (s1 s2 : string) :
  String.length (s1 +:+ s2) = (String.length s1 + String.length s2)%nat.
Proof. induction s1 as [|c s1 IH]; simpl; [reflexivity|]. f_equal. exact IH. Qed.

Lemma string_app_cancel_r (s1 : string) : ∀ s2 t : string,
  s1 +:+ t = s2 +:+ t → s1 = s2.
Proof.
  induction s1 as [|c s1 IH]; intros [|c' s2] t Heq; simpl in Heq.
  - reflexivity.
  - apply (f_equal String.length) in Heq. simpl in Heq.
    rewrite !string_length_app in Heq. simpl in Heq. lia.
  - apply (f_equal String.length) in Heq. simpl in Heq.
    rewrite !string_length_app in Heq. simpl in Heq. lia.
  - injection Heq as -> Heq. f_equal. exact (IH s2 t Heq).
Qed.

(** X5. Every request built by [_partial_request] asks for the identity
    encoding.  It has no range header when no start position is given, and
    the header [range: bytes=<p>-] with [p] in decimal otherwise; the
    headers determine the start position, so requests for different
    positions differ. *)
Theorem range_header_determines_position :
  (∀ start_pos,
     partial_request_headers start_pos !! "Accept-Encoding" = Some "identity")
  ∧ partial_request_headers None !! "range" = None
  ∧ (∀ p, partial_request_headers (Some p) !! "range"
          = Some ("bytes=" +:+ pretty p +:+ "-"))
  ∧ (∀ a c,
       partial_request_headers a = partial_request_headers c → a = c).
Proof.
  assert (Hnone : partial_request_headers None !! "range" = None)
    by (vm_compute; reflexivity).
  assert (Hsome : ∀ p, partial_request_headers (Some p) !! "range"
                       = Some ("bytes=" +:+ pretty p +:+ "-")).
  { intros p. unfold partial_request_headers. apply lookup_insert_eq. }
  split; [|split; [exact Hnone|split; [exact Hsome|]]].
  - intros [p|]; unfold partial_request_headers, _HEADERS.
    + rewrite lookup_insert_ne by discriminate. apply lookup_singleton_eq.
    + apply lookup_singleton_eq.
  - intros [p|] [q|] Heq; apply (f_equal (λ h : gmap string string, h !! "range")) in Heq;
      cbn beta in Heq; rewrite ?Hnone, ?Hsome in Heq; try discriminate; [|reflexivity].
    injection Heq as Heq.
    change (pretty p +:+ "-" = pretty q +:+ "-") in Heq.
    apply string_app_cancel_r in Heq. apply (inj pretty) in Heq. congruence.
Qed.

(** ** Seeking again, and seeking after the handle is gone *)

(** X6. On an instance with the capability flag on, repeating a [seek]
    from the start or from the end changes nothing: the second call returns
    the same position, sends no request, and leaves the instance as the
    first call left it. *)
Theorem seek_twice requests_get self offset whence :
  seekable self = true →
  whence = START ∨ whence = END →
  let once := snd (seek requests_get offset whence self) in
  seek requests_get offset whence once
  = (fst (seek requests_get offset whence self), once).
Proof.
  intros Hs Hw once. unfold seekable in Hs.
  set (t := if whence =? START then offset else content_length self + offset).
  assert (Ht : whence = START ∧ t = offset
               ∨ whence = CURRENT ∧ t = _current_pos (base self) + offset
               ∨ whence = END ∧ t = content_length self + offset).
  { subst t. destruct Hw as [-> | ->]; [left|right; right]; split; reflexivity. }
  pose proof (seek_frame requests_get offset whence self) as (Hs' & Hcl & _).
  fold once in Hs', Hcl. unfold seekable in Hs'. rewrite Hs in Hs'.
  assert (Hfirst : fst (seek requests_get offset whence self)
                   = inr (_clamp t 0 (content_length self))
                   ∧ _current_pos (base once) = _clamp t 0 (content_length self)).
  { subst once. rewrite (seek_unfold requests_get self offset whence t Hs Ht).
    cbn zeta.
    destruct (Z.eqb_spec (_current_pos (base self))
                (_clamp t 0 (content_length self))); cbn; auto. }
  destruct Hfirst as (-> & Hpos).
  assert (Ht' : whence = START ∧ t = offset
                ∨ whence = CURRENT ∧ t = _current_pos (base once) + offset
                ∨ whence = END ∧ t = content_length once + offset).
  { rewrite Hcl. subst t.
    destruct Hw as [-> | ->]; [left|right; right]; split; reflexivity. }
  rewrite (seek_unfold requests_get once offset whence t Hs' Ht'). cbn zeta.
  rewrite Hcl, Hpos, Z.eqb_refl. reflexivity.
Qed.

Lemma seek_twice_witness :
  seek alphabet_server (-5) END (snd (seek alphabet_server (-5) END alphabet_reader))
  = (inr 21, snd (seek alphabet_server (-5) END alphabet_reader)).
Proof.
  apply (seek_twice alphabet_server alphabet_reader (-5) END).
  - reflexivity.
  - right. reflexivity.
Defined.

(** X7. [seek] does not look at the handle.  On an instance with the
    capability flag on - also one that was closed, or that lost its handle
    in a failed seek - a [seek] to a position [p] other than the cursor whose
    request is answered with success installs the new response as the
    handle, with no buffer and no iterator.  [read(-1)] then returns the
    whole body of that response, and so do bounded reads repeated to the
    end; when the transport serves [content] and the content length is its
    length, that body is [content] from [p]. *)
Theorem seek_reopens requests_get self offset whence t :
  seekable self = true →
  (whence = START ∧ t = offset
   ∨ whence = CURRENT ∧ t = tell self + offset
   ∨ whence = END ∧ t = content_length self + offset) →
  let p := _clamp t 0 (content_length self) in
  tell self ≠ p →
  ok (reopened requests_get self p) = true →
  let after := base (snd (seek requests_get offset whence self)) in
  let body := concat (raw (reopened requests_get self p)) in
  response after = Some (reopened requests_get self p)
  ∧ _read_buffer after = None
  ∧ _read_iter after = None
  ∧ fst (read (-1) after) = inr (PyBytes body)
  ∧ (∀ n fuel, 0 < n → (length body < fuel)%nat →
       read_until_empty fuel n after = Some (inr body))
  ∧ (∀ content,
       serves requests_get content →
       content_length self = Z.of_nat (length content) →
       body = drop (Z.to_nat p) content).
Proof.
  intros Hs Ht p Hp Hok after body. unfold seekable, tell in *.
  assert (Hafter : after = base (moved requests_get self p)).
  { subst after. rewrite (seek_unfold requests_get self offset whence t Hs Ht).
    cbn zeta. fold p.
    destruct (Z.eqb_spec (_current_pos (base self)) p); [contradiction|reflexivity]. }
  assert (Hresp : response after = Some (reopened requests_get self p)).
  { rewrite Hafter. unfold moved. cbn.
    fold (reopened requests_get self p). rewrite Hok. reflexivity. }
  assert (Hiter : _read_iter after = None) by (rewrite Hafter; reflexivity).
  split; [exact Hresp|]. split; [rewrite Hafter; reflexivity|].
  split; [exact Hiter|].
  split; [exact (read_all_fresh after _ Hresp)|]. split.
  - intros n fuel Hn Hfuel.
    assert (Hready : buffer_ready after) by (left; exact Hiter).
    assert (Hbuf : buffered after = []) by (unfold buffered; rewrite Hiter; reflexivity).
    pose proof (read_until_empty_rest fuel after _ n Hresp Hn Hready) as Hall.
    rewrite Hbuf in Hall. apply Hall. exact Hfuel.
  - intros content Hserves Hlen.
    pose proof (Hserves (requests_log (base self)) (url self) (auth self) (Some p))
      as Hbody.
    cbv zeta in Hbody. fold (reopened requests_get self p) in Hbody.
    apply (Hbody Hok). subst p. rewrite Hlen. unfold _clamp. lia.
Qed.

Lemma seek_reopens_witness :
  let closed := snd (exec alphabet_server Close alphabet_reader) in
  response (base closed) = None
  ∧ fst (read (-1) (base (snd (seek alphabet_server 20 START closed))))
    = inr (PyBytes (concat (raw (reopened alphabet_server closed 20)))).
Proof.
  cbv zeta. split; [reflexivity|].
  destruct (seek_reopens alphabet_server
              (snd (exec alphabet_server Close alphabet_reader)) 20 START 20)
    as (_ & _ & _ & H & _).
  - reflexivity.
  - left. split; reflexivity.
  - vm_compute. discriminate.
  - vm_compute. reflexivity.
  - exact H.
Defined.

(** ** What [read] and [readinto] account for *)







(** ** The constructors *)



(** ** Bounded reads return slices of the content *)

Lemma read_in_step content size self :
  0 ≤ size →
  in_step content self →
  in_step content (snd (read size self))
  ∧ (∀ r, response self = Some r → 0 < size →
       fst (read size self)
       = inr (PyBytes (take (Z.to_nat size)
                         (drop (Z.to_nat (_current_pos self)) content)))).
Proof.
  intros Hsize (Hpos & Hready & Hstep).
  destruct (response self) as [r|] eqn:Hr;
    [|rewrite (read_closed size self Hr); cbn [snd]; split;
      [split; [exact Hpos|split; [exact Hready|]]; intros r' Hr'; congruence
      |discriminate]].
  specialize (Hstep r eq_refl).
  destruct (Z.eq_dec size 0) as [->|Hnz].
  - unfold read. rewrite Hr. cbn. split; [|lia].
    split; [exact Hpos|]. split; [exact Hready|].
    intros r' Hr'. rewrite Hr in Hr'. injection Hr' as <-. exact Hstep.
  - assert (Hgt : 0 < size) by lia.
    rewrite (read_bounded_unfold self r size Hr Hgt Hready).
    destruct (fill_buffer (buffered self) (raw r) size) as [[buf rest] enough] eqn:Hfill.
    destruct (fill_buffer_keeps _ _ _ _ _ _ Hfill) as (Hkeep & Henough & Hshort).
    rewrite Hstep in Hkeep.
    destruct enough; cbv beta iota zeta; cbn [fst snd].
    + specialize (Henough eq_refl).
      assert (Hle : (Z.to_nat size ≤ length buf)%nat) by lia.
      assert (Htake : length (take (Z.to_nat size) buf) = Z.to_nat size).
      { rewrite length_take. lia. }
      split.
      * split; cbn [_current_pos]; [lia|].
        split; [right; eexists; reflexivity|].
        intros r' [= <-]. rewrite buffered_after_read. cbn [raw with_raw].
        rewrite Htake.
        replace (Z.to_nat (_current_pos self + Z.of_nat (Z.to_nat size)))
          with (Z.to_nat (_current_pos self) + Z.to_nat size)%nat by lia.
        rewrite <- drop_drop, <- Hkeep, drop_app_le by exact Hle. reflexivity.
      * intros r' _ _. rewrite <- Hkeep, take_app_le by exact Hle. reflexivity.
    + destruct (Hshort eq_refl) as (-> & Hlt). cbn [concat] in Hkeep.
      rewrite app_nil_r in Hkeep. subst buf.
      split.
      * split; cbn [_current_pos]; [lia|].
        split; [right; eexists; reflexivity|].
        intros r' [= <-]. rewrite buffered_after_read. cbn [raw with_raw concat app].
        replace (Z.to_nat (_current_pos self
                   + Z.of_nat (length (drop (Z.to_nat (_current_pos self)) content))))
          with (Z.to_nat (_current_pos self)
                + length (drop (Z.to_nat (_current_pos self)) content))%nat by lia.
        rewrite <- drop_drop, drop_all. reflexivity.
      * intros r' _ _. rewrite take_ge by lia. reflexivity.
Qed.

Lemma exec_in_step requests_get content c self :
  serves requests_get content →
  bounded_call c →
  consistent content self ∧ in_step content (base self) →
  consistent content (snd (exec requests_get c self))
  ∧ in_step content (base (snd (exec requests_get c self))).
Proof.
  intros Hserves Hc (Hcons & Hstep).
  split; [exact (exec_consistent _ _ c _ Hserves Hcons)|].
  destruct c as [size|offset whence|].
  - destruct (read_in_step content size (base self) Hc Hstep) as (Hread & _).
    cbn. unfold fmap_outcome, bind, inherited.
    destruct (read size (base self)) as [[e|d] s']; exact Hread.
  - pose proof (seek_log requests_get offset whence self) as Hlog.
    assert (Hsnd : snd (exec requests_get (Seek offset whence) self)
                   = snd (seek requests_get offset whence self)).
    { cbn. unfold fmap_outcome, bind.
      destruct (seek requests_get offset whence self) as [[e|p] s']; reflexivity. }
    rewrite Hsnd.
    destruct (existsb (Z.eqb whence) WHENCE_CHOICES) eqn:Hw;
      [|unfold seek; rewrite Hw; exact Hstep].
    destruct (_seekable self) eqn:Hs;
      [|unfold seek, seekable; rewrite Hw, Hs; exact Hstep].
    apply whence_choices_spec in Hw.
    assert (Ht : ∃ t, whence = START ∧ t = offset
                      ∨ whence = CURRENT ∧ t = _current_pos (base self) + offset
                      ∨ whence = END ∧ t = content_length self + offset).
    { destruct Hw as [-> | [-> | ->]]; eexists; eauto. }
    destruct Ht as (t & Ht).
    rewrite (seek_unfold requests_get self offset whence t Hs Ht). cbn zeta.
    set (p := _clamp t 0 (content_length self)).
    destruct (_current_pos (base self) =? p); [exact Hstep|].
    destruct Hcons as (Hlen & _).
    assert (Hp : 0 ≤ p ≤ Z.of_nat (length content)).
    { subst p. rewrite (Hlen Hs). unfold _clamp. lia. }
    cbn [snd]. unfold moved. cbn [base].
    split; cbn [_current_pos]; [lia|]. split; [left; reflexivity|].
    cbn [response]. fold (reopened requests_get self p).
    destruct (ok (reopened requests_get self p)) eqn:Hok; [|discriminate].
    intros r' [= <-]. unfold buffered. cbn [_read_iter app].
    pose proof (Hserves (requests_log (base self)) (url self) (auth self) (Some p))
      as Hbody.
    cbv zeta in Hbody. fold (reopened requests_get self p) in Hbody.
    exact (Hbody Hok Hp).
  - destruct Hstep as (Hpos & Hready & _). cbn.
    split; [exact Hpos|]. split; [exact Hready|]. discriminate.
Qed.

Lemma run_in_step requests_get content cs : ∀ self,
  serves requests_get content →
  Forall bounded_call cs →
  consistent content self ∧ in_step content (base self) →
  consistent content (snd (run requests_get cs self))
  ∧ in_step content (base (snd (run requests_get cs self))).
Proof.
  induction cs as [|c cs IH]; intros self Hserves Hcs Hinv; cbn [run].
  - exact Hinv.
  - apply Forall_cons in Hcs as (Hc & Hcs).
    pose proof (exec_in_step requests_get content c self Hserves Hc Hinv) as Hinv1.
    destruct (exec requests_get c self) as [res self1]. cbn [snd] in Hinv1.
    specialize (IH self1 Hserves Hcs Hinv1).
    destruct (run requests_get cs self1) as [more self2]. exact IH.
Qed.

(** X11. Let the transport serve [content], and let a client use an
    instance from the constructor through [seek], [close] and [read] with
    sizes that are not negative.  Then the buffer followed by the body still
    to come is always the content from the cursor on, and whenever there is
    a handle, [read(size)] with [size > 0] returns [content[pos:pos+size]]
    for the cursor [pos]: the right bytes, whatever the chunking and
    whatever seeks came before. *)
Theorem bounded_reads_return_slices requests_get content
    locator mode buffer_size kerberos user password self0 cs :
  serves requests_get content →
  SeekableBufferedInputBase_init requests_get
    locator mode buffer_size kerberos user password = inr self0 →
  Forall bounded_call cs →
  let self := snd (run requests_get cs self0) in
  in_step content (base self)
  ∧ 0 ≤ tell self ≤ Z.of_nat (length content)
  ∧ ∀ size r,
      response (base self) = Some r → 0 < size →
      fst (read size (base self))
      = inr (PyBytes (take (Z.to_nat size)
                        (drop (Z.to_nat (tell self)) content))).
Proof.
  intros Hserves Hinit Hcs self.
  pose proof (init_consistent _ _ _ _ _ _ _ _ _ Hserves Hinit) as Hcons.
  assert (Hstep0 : in_step content (base self0)).
  { unfold SeekableBufferedInputBase_init in Hinit.
    specialize (Hserves [] locator (choose_auth kerberos user password) None).
    cbv zeta in Hserves, Hinit.
    set (r := requests_get [] _) in *.
    destruct (ok r) eqn:Hok;
      [|unfold ok in Hok; destruct (raise_for_status r); discriminate].
    destruct (Hserves eq_refl) as (Hbody & _).
    destruct (parse_content_length (headers r)); [|discriminate].
    injection Hinit as <-.
    split; [cbn [base _current_pos]; lia|]. split; [left; reflexivity|].
    cbn [base response]. intros r' [= <-]. exact Hbody. }
  destruct (run_in_step requests_get content cs self0 Hserves Hcs (conj Hcons Hstep0))
    as ((_ & [_ Hrange _]) & Hstep).
  fold self in Hrange, Hstep.
  split; [exact Hstep|]. split; [exact Hrange|].
  intros size r Hr Hsize.
  destruct (read_in_step content size (base self) ltac:(lia) Hstep) as (_ & Hread).
  exact (Hread r Hr Hsize).
Qed.

Lemma bounded_reads_return_slices_witness :
  fst (read 4 (base (snd (run alphabet_server
                            [Read 3; Seek (-10) END; Read 5] alphabet_reader))))
  = inr (PyBytes (take 4 (drop (Z.to_nat (tell (snd (run alphabet_server
                            [Read 3; Seek (-10) END; Read 5] alphabet_reader))))
                          alphabet))).
Proof.
  destruct (bounded_reads_return_slices alphabet_server alphabet
              "http://host/abc" "r" DEFAULT_BUFFER_SIZE false None None
              alphabet_reader [Read 3; Seek (-10) END; Read 5])
    as (_ & _ & H).
  - exact alphabet_server_serves.
  - vm_compute. reflexivity.
  - repeat constructor; cbn; lia.
  - eapply (H 4); [vm_compute; reflexivity|lia].
Defined.

(** ** What [read(-1)] returns *)

(** X12. On an instance in step with [content] that has a handle,
    [read(-1)] returns the content from the cursor plus the number of
    buffered bytes: the rest of the resource when the buffer is empty, and
    the rest without the buffered bytes otherwise.  The buffer is left as it
    was, and the cursor advances by the bytes returned. *)
Theorem read_all_from_buffer_end content self r :
  in_step content self →
  response self = Some r →
  let skipped := length (buffered self) in
  fst (read (-1) self)
  = inr (PyBytes (drop (Z.to_nat (_current_pos self) + skipped) content))
  ∧ (skipped = 0%nat →
     fst (read (-1) self)
     = inr (PyBytes (drop (Z.to_nat (_current_pos self)) content)))
  ∧ buffered (snd (read (-1) self)) = buffered self
  ∧ _current_pos (snd (read (-1) self))
    = _current_pos self
      + Z.of_nat (length (drop (Z.to_nat (_current_pos self) + skipped) content)).
Proof.
  intros (Hpos & Hready & Hstep) Hr skipped. specialize (Hstep r Hr).
  assert (Hraw : concat (raw r)
                 = drop (Z.to_nat (_current_pos self) + skipped) content).
  { subst skipped. rewrite <- drop_drop, <- Hstep, drop_app_length. reflexivity. }
  assert (Hres : fst (read (-1) self)
                 = inr (PyBytes (drop (Z.to_nat (_current_pos self) + skipped) content))).
  { rewrite (read_all_fresh self r Hr), Hraw. reflexivity. }
  split; [exact Hres|]. split.
  - intros Hz. rewrite Hres, Hz, Nat.add_0_r. reflexivity.
  - split.
    + unfold read. rewrite Hr. reflexivity.
    + rewrite (read_advances (-1) self), Hres. reflexivity.
Qed.

Lemma read_all_from_buffer_end_witness :
  fst (read (-1) (snd (read 10 alphabet_base)))
  = inr (PyBytes (drop (10 + 2) alphabet)).
Proof.
  destruct (read_all_from_buffer_end alphabet (snd (read 10 alphabet_base))
              (with_raw (alphabet_server [] first_request)
                 (drop 3 (raw (alphabet_server [] first_request)))))
    as (H & _).
  - split; [vm_compute; discriminate|].
    split; [right; eexists; reflexivity|].
    intros r' Hr'. vm_compute in Hr'. injection Hr' as <-.
    vm_compute. reflexivity.
  - vm_compute. reflexivity.
  - exact H.
Defined.

(** ** The end of the stream *)




Lemma run_snoc requests_get cs c : ∀ s,
  snd (run requests_get (cs ++ [c]) s)
  = snd (exec requests_get c (snd (run requests_get cs s))).
Proof.
  induction cs as [|c' cs IH]; intros s; cbn [app run snd].
  - destruct (exec requests_get c s) as [res s1]. reflexivity.
  - specialize (IH (snd (exec requests_get c' s))).
    destruct (exec requests_get c' s) as [res s1]. cbn [snd] in IH.
    destruct (run requests_get (cs ++ [c]) s1) as [m1 s2].
    destruct (run requests_get cs s1) as [m2 s3]. exact IH.
Qed.

Lemma run_keeps_flags requests_get cs : ∀ s,
  _seekable (snd (run requests_get cs s)) = _seekable s
  ∧ content_length (snd (run requests_get cs s)) = content_length s.
Proof.
  induction cs as [|c cs IH]; intros s; cbn [run]; [split; reflexivity|].
  destruct (exec_keeps_flags requests_get c s) as (Hf & Hl).
  specialize (IH (snd (exec requests_get c s))).
  destruct (exec requests_get c s) as [res s1]. cbn [snd] in *.
  destruct (run requests_get cs s1) as [more s2]. cbn [snd] in *.
  destruct IH as (If & Il). split; congruence.
Qed.

Lemma init_in_step requests_get content
    locator mode buffer_size kerberos user password self0 :
  serves requests_get content →
  SeekableBufferedInputBase_init requests_get
    locator mode buffer_size kerberos user password = inr self0 →
  consistent content self0 ∧ in_step content (base self0).
Proof.
  intros Hserves Hinit.
  split; [exact (init_consistent _ _ _ _ _ _ _ _ _ Hserves Hinit)|].
  unfold SeekableBufferedInputBase_init in Hinit.
  specialize (Hserves [] locator (choose_auth kerberos user password) None).
  cbv zeta in Hserves, Hinit.
  set (r := requests_get [] _) in *.
  destruct (ok r) eqn:Hok;
    [|unfold ok in Hok; destruct (raise_for_status r); discriminate].
  destruct (Hserves eq_refl) as (Hbody & _).
  destruct (parse_content_length (headers r)); [|discriminate].
  injection Hinit as <-.
  split; [cbn [base _current_pos]; lia|]. split; [left; reflexivity|].
  cbn [base response]. intros r' [= <-]. exact Hbody.
Qed.

(** ** Rewinding *)

(** X14. Let the transport serve [content] and let a client use an
    instance with the capability flag on through [seek], [close] and
    non-negative reads.  After [seek(0, START)] the cursor is 0, and if the
    instance has a handle then [read(content_length)] returns the whole
    content. *)
Theorem rewind_reads_everything requests_get content
    locator mode buffer_size kerberos user password self0 cs :
  serves requests_get content →
  SeekableBufferedInputBase_init requests_get
    locator mode buffer_size kerberos user password = inr self0 →
  seekable self0 = true →
  Forall bounded_call cs →
  let self := snd (run requests_get (cs ++ [Seek 0 START]) self0) in
  tell self = 0
  ∧ content_length self = Z.of_nat (length content)
  ∧ (response (base self) ≠ None →
     ∃ d, fst (read (content_length self) (base self)) = inr d
          ∧ py_bytes d = content).
Proof.
  intros Hserves Hinit Hs Hcs self. unfold seekable in Hs.
  assert (Hall : Forall bounded_call (cs ++ [Seek 0 START])).
  { apply Forall_app. split; [exact Hcs|]. repeat constructor. }
  destruct (run_in_step requests_get content (cs ++ [Seek 0 START]) self0
              Hserves Hall (init_in_step _ _ _ _ _ _ _ _ _ Hserves Hinit))
    as ((Hlen & _) & Hstep).
  fold self in Hlen, Hstep.
  destruct (run_keeps_flags requests_get (cs ++ [Seek 0 START]) self0) as (Hflag & _).
  fold self in Hflag. rewrite Hs in Hflag.
  specialize (Hlen Hflag).
  assert (Htell : tell self = 0).
  { subst self. rewrite run_snoc.
    set (s := snd (run requests_get cs self0)).
    destruct (run_keeps_flags requests_get cs self0) as (Hf & Hcl).
    fold s in Hf, Hcl. rewrite Hs in Hf.
    pose proof (init_length_nonneg _ _ _ _ _ _ _ _ Hinit Hs) as Hnonneg.
    rewrite <- Hcl in Hnonneg.
    assert (Hsnd : snd (exec requests_get (Seek 0 START) s)
                   = snd (seek requests_get 0 START s)).
    { cbn [exec]. unfold fmap_outcome, bind.
      destruct (seek requests_get 0 START s) as [[e|p] s']; reflexivity. }
    rewrite Hsnd.
    rewrite (seek_unfold requests_get s 0 START 0 Hf
               (or_introl (conj eq_refl eq_refl))).
    cbn zeta.
    assert (Hclamp : _clamp 0 0 (content_length s) = 0) by (unfold _clamp; lia).
    rewrite Hclamp. unfold tell.
    destruct (Z.eqb_spec (_current_pos (base s)) 0); cbn; auto. }
  split; [exact Htell|]. split; [exact Hlen|].
  intros Hresp.
  destruct (response (base self)) as [r|] eqn:Hr; [|contradiction].
  destruct (Z.eq_dec (content_length self) 0) as [Hz|Hnz].
  - rewrite Hz. unfold read. rewrite Hr. cbn.
    exists (PyStr ""). split; [reflexivity|]. cbn.
    symmetry. apply length_zero_iff_nil. lia.
  - destruct (read_in_step content (content_length self) (base self)
                ltac:(lia) Hstep) as (_ & Hread).
    rewrite (Hread r Hr ltac:(lia)). eexists. split; [reflexivity|].
    cbn. unfold tell in Htell. rewrite Htell, Hlen. cbn.
    rewrite Nat2Z.id. apply firstn_all.
Qed.

Lemma rewind_reads_everything_witness :
  let self := snd (run alphabet_server
                     ([Read 10; Seek 20 START] ++ [Seek 0 START]) alphabet_reader) in
  tell self = 0
  ∧ ∃ d, fst (read (content_length self) (base self)) = inr d
         ∧ py_bytes d = alphabet.
Proof.
  destruct (rewind_reads_everything alphabet_server alphabet
              "http://host/abc" "r" DEFAULT_BUFFER_SIZE false None None
              alphabet_reader [Read 10; Seek 20 START])
    as (Htell & _ & Hread).
  - exact alphabet_server_serves.
  - vm_compute. reflexivity.
  - reflexivity.
  - repeat constructor; cbn; lia.
  - cbv zeta. split; [exact Htell|].
    apply Hread. vm_compute. discriminate.
Defined.

Lemma range_header_determines_position_witness :
  partial_request_headers (Some 20) !! "range" = Some "bytes=20-"
  ∧ Some 20 = Some (10 + 10).
Proof.
  destruct range_header_determines_position as (_ & _ & Hrange & Hinj).
  split; [exact (Hrange 20)|].
  apply Hinj. reflexivity.
Defined.
